(** * btrfs.c: the command dispatcher of btrfs-progs

    A shallow embedding of [src/btrfs.c]: the token matcher
    ([parse_one_token]), the output-format negotiation
    ([cmd_provides_output_format], [handle_help_options_next_level]), the
    global option parser ([handle_output_format], [handle_global_options]),
    the special globals ([handle_special_globals]) and [main].

    Conventions.
    - A C string is the [string] of its characters before the terminating
      NUL; a NULL-terminated array is the [list] of its entries before the
      NULL.
    - [int] values are [Z]; the one place where the source can leave the
      32-bit range ([1 << output_mode]) has its wrap-around written out.
    - A function that prints, calls an external routine or ends the
      process is a computation in the monad [proc]: a trace of events and
      an outcome. *)

From Stdlib Require Import ZArith List Bool Ascii String Lia.
Import ListNotations.
Local Open Scope string_scope.
Local Open Scope Z_scope.

(* ================================================================== *)
(** ** The C library, as far as btrfs.c uses it *)

(** The C standard fixes the sign of what [strncmp], [strcmp] and
    [strcasecmp] return, not the value; btrfs.c tests it against zero
    only. The model returns -1, 0 or 1: [order_uchar] is the result at
    the first position where the two characters differ. *)
Definition order_uchar (c1 c2 : ascii) : Z :=
  if (nat_of_ascii c1 <? nat_of_ascii c2)%nat then -1 else 1.

Definition strlen (s : string) : nat := String.length s.

(** [str + n]: the string that starts [n] characters into [str]. *)
Fixpoint ptr_add (str : string) (n : nat) {struct n} : string :=
  match n, str with
  | O, _ => str
  | S n', String _ rest => ptr_add rest n'
  | S _, EmptyString => EmptyString
  end.

(** [strncmp]: at most [n] characters are compared; a string that ends
    first is the smaller one. *)
Fixpoint strncmp (s1 s2 : string) (n : nat) : Z :=
  match n with
  | O => 0
  | S n' =>
    match s1, s2 with
    | EmptyString, EmptyString => 0
    | EmptyString, String _ _ => -1
    | String _ _, EmptyString => 1
    | String c1 r1, String c2 r2 =>
      if Ascii.eqb c1 c2 then strncmp r1 r2 n' else order_uchar c1 c2
    end
  end.

Fixpoint strcmp (s1 s2 : string) : Z :=
  match s1, s2 with
  | EmptyString, EmptyString => 0
  | EmptyString, String _ _ => -1
  | String _ _, EmptyString => 1
  | String c1 r1, String c2 r2 =>
    if Ascii.eqb c1 c2 then strcmp r1 r2 else order_uchar c1 c2
  end.

(** [tolower] in the C locale: only 'A'..'Z' change. *)
Definition tolower (c : ascii) : ascii :=
  let n := nat_of_ascii c in
  if ((65 <=? n) && (n <=? 90))%nat then ascii_of_nat (n + 32) else c.

(** [strcasecmp]: [strcmp] on the lower-case images of the characters. *)
Fixpoint strcasecmp (s1 s2 : string) : Z :=
  match s1, s2 with
  | EmptyString, EmptyString => 0
  | EmptyString, String _ _ => -1
  | String _ _, EmptyString => 1
  | String c1 r1, String c2 r2 =>
    if Ascii.eqb (tolower c1) (tolower c2) then strcasecmp r1 r2
    else order_uchar (tolower c1) (tolower c2)
  end.

(** [strrchr s c] for a character [c] other than NUL: the string that
    starts at the last occurrence of [c], [None] for NULL. *)
Fixpoint strrchr (s : string) (c : ascii) : option string :=
  match s with
  | EmptyString => None
  | String a rest =>
    match strrchr rest c with
    | Some r => Some r
    | None => if Ascii.eqb a c then Some s else None
    end
  end.

(** The lower-case image of a string: what [strcasecmp] compares. *)
Fixpoint lowercase (s : string) : string :=
  match s with
  | EmptyString => EmptyString
  | String c rest => String (tolower c) (lowercase rest)
  end.

(* ================================================================== *)
(** ** commands.h: the command tree and the dispatch context *)

(** Modelled from the spec: [struct cmd_context] is declared in another
    file of the repository. It holds the selected output mode, an
    enumerator that btrfs.c also uses as an index into [cmd_outputs]. *)
Record cmd_context : Type := Build_cmd_context { output_mode : Z }.

(** The function a command's handler pointer holds: one of the two
    handlers defined in btrfs.c, or a handler defined in another file,
    named by its symbol. *)
Inductive handler : Type :=
| Fn_cmd_help
| Fn_cmd_version
| Fn_extern (symbol : string).

(** Modelled from the spec: [struct cmd_struct] and [struct cmd_group]
    are declared in another file of the repository. A command has its
    token, its handler, its usage text, the nested group ([None], a NULL
    pointer, for a leaf) and the mask of the output formats it supports; a
    group has its usage and info text and its commands in order. *)
Inductive cmd_struct : Type := Build_cmd_struct {
  token : string;
  fn : handler;
  usagestr : list string;
  next : option cmd_group;
  cmd_format_flags : Z
}
with cmd_group : Type := Build_cmd_group {
  group_usagestr : list string;
  infostr : string;
  commands : list cmd_struct
}.

(* ================================================================== *)
(** ** The token matcher *)

(** [skip_prefix]: [str + strlen (prefix)] when [str] starts with
    [prefix], NULL otherwise. *)
Definition skip_prefix (str prefix : string) : option string :=
  let len := strlen prefix in
  if strncmp str prefix len =? 0 then Some (ptr_add str len) else None.

(** Modelled from the spec: [prefixcmp] is defined in another file of the
    repository. It is zero exactly when [str] starts with [prefix]
    (section 4.1: "the command's name starts with the input token as a
    prefix") and not zero otherwise. *)
Fixpoint prefixcmp (str prefix : string) : Z :=
  match prefix with
  | EmptyString => 0
  | String p prefix' =>
    match str with
    | EmptyString => 1
    | String s str' =>
      if Ascii.eqb s p then prefixcmp str' prefix' else order_uchar p s
    end
  end.

(** The state of the scan of [parse_one_token] when the loop ends: either
    the function has returned from inside the loop, or the loop ran to the
    NULL entry with these values of [abbrev_cmd] and [ambiguous_cmd]. *)
Inductive scan : Type :=
| Scan_return (cmd : cmd_struct)
| Scan_end (abbrev_cmd ambiguous_cmd : option cmd_struct).

(** The [for] loop of [parse_one_token] over the entries that are left. *)
Fixpoint parse_one_token_loop (arg : string) (cmds : list cmd_struct)
    (abbrev_cmd ambiguous_cmd : option cmd_struct) : scan :=
  match cmds with
  | [] => Scan_end abbrev_cmd ambiguous_cmd
  | cmd :: cmds' =>
    match skip_prefix arg (token cmd) with
    | None =>
      if prefixcmp (token cmd) arg =? 0 then
        let ambiguous_cmd' :=
          match abbrev_cmd with
          | Some _ => abbrev_cmd
          | None => ambiguous_cmd
          end in
        parse_one_token_loop arg cmds' (Some cmd) ambiguous_cmd'
      else parse_one_token_loop arg cmds' abbrev_cmd ambiguous_cmd
    | Some rest =>
      match rest with
      | String _ _ => parse_one_token_loop arg cmds' abbrev_cmd ambiguous_cmd
      | EmptyString => Scan_return cmd
      end
    end
  end.

(** [parse_one_token]: the returned [int] and the value of [*cmd_ret]
    afterwards ([cmd_ret] is what it held before the call). *)
Definition parse_one_token (arg : string) (grp : cmd_group)
    (cmd_ret : option cmd_struct) : Z * option cmd_struct :=
  match parse_one_token_loop arg (commands grp) None None with
  | Scan_return cmd => (0, Some cmd)
  | Scan_end abbrev_cmd ambiguous_cmd =>
    match ambiguous_cmd with
    | Some _ => (-2, cmd_ret)
    | None =>
      match abbrev_cmd with
      | Some cmd => (0, Some cmd)
      | None => (-1, cmd_ret)
      end
    end
  end.

(* ================================================================== *)
(** ** Processes: what a call prints, calls and how it ends *)

Inductive stream : Type := stdout | stderr.

(** What the process does to the outside: a write to a stream, or a call
    of a routine that btrfs.c takes from another file. [Enter_fn] marks
    the call through a command's [fn] pointer. *)
Inductive event : Type :=
| Write (outf : stream) (text : string)
| Usage_command (cmd : cmd_struct) (full err : bool)
| Usage_command_group (grp : cmd_group) (full err : bool)
| Usage_command_group_short (grp : cmd_group)
| Help_command_group (grp : cmd_group) (argv : list string)
| Help_unknown_token (arg : string) (grp : cmd_group)
| Help_ambiguous_token (arg : string) (grp : cmd_group)
| Enter_fn (cmd : cmd_struct) (cmdcxt : cmd_context) (argv : list string)
| Btrfs_config_init
| Crc32c_optimization_init
| Btrfs_close_all_devices.

(** How a call ends: it returns a value, the process ends through
    [exit (status)], or the process is killed (a failed [ASSERT], a NULL
    pointer read). *)
Inductive outcome (A : Type) : Type :=
| Returns (a : A)
| Exits (status : Z)
| Aborts.
Arguments Returns {A} a.
Arguments Exits {A} status.
Arguments Aborts {A}.

Definition proc (A : Type) : Type := (list event * outcome A)%type.

Definition ret {A : Type} (a : A) : proc A := ([], Returns a).

Definition bind {A B : Type} (m : proc A) (k : A -> proc B) : proc B :=
  match m with
  | (tr, Returns a) => let (tr', o) := k a in ((tr ++ tr')%list, o)
  | (tr, Exits status) => (tr, Exits status)
  | (tr, Aborts) => (tr, Aborts)
  end.

Definition emit (e : event) : proc unit := ([e], Returns tt).
Definition exit {A : Type} (status : Z) : proc A := ([], Exits status).
Definition abort {A : Type} : proc A := ([], Aborts).

Declare Scope proc_scope.
Delimit Scope proc_scope with proc.
Notation "x <- m ;; k" := (bind m (fun x => k))
  (at level 61, m at next level, right associativity) : proc_scope.
Notation "m ;; k" := (bind m (fun _ => k))
  (at level 61, right associativity) : proc_scope.
Local Open Scope proc_scope.

(** Sequencing for the two functions that write the context they are
    given: the call on the left yields the context it leaves behind, and
    the rest runs on that context unless the process has ended. *)
Definition bind_cxt {A B : Type} (m : cmd_context * proc A)
    (k : cmd_context -> A -> cmd_context * proc B) : cmd_context * proc B :=
  match m with
  | (c, (tr, Returns a)) =>
    match k c a with
    | (c', (tr', o)) => (c', ((tr ++ tr')%list, o))
    end
  | (c, (tr, Exits status)) => (c, (tr, Exits status))
  | (c, (tr, Aborts)) => (c, (tr, Aborts))
  end.

Definition trace {A : Type} (m : proc A) : list event := fst m.
Definition result {A : Type} (m : proc A) : outcome A := snd m.

(** Modelled from the spec: the [ASSERT] macro is defined in another file
    of the repository. A condition that holds has no effect; one that
    fails ends the process abnormally. *)
Definition ASSERT (c : bool) : proc unit := if c then ret tt else abort.

(** Whether a pointer is NULL. *)
Definition is_NULL {A : Type} (p : option A) : bool :=
  match p with
  | None => true
  | Some _ => false
  end.

Definition LF : string := String (ascii_of_nat 10) EmptyString.
Definition DQUOTE : string := String (ascii_of_nat 34) EmptyString.

(* ================================================================== *)
(** ** getopt_long, as [handle_global_options] calls it *)

(** [struct option]. *)
Record long_option : Type := Build_long_option {
  name : string;
  has_arg : Z;
  flag : option Z;
  val : Z
}.

Definition no_argument : Z := 0.
Definition required_argument : Z := 1.

(** The text of a long option after the two dashes: the name up to the
    first '=', and the value after it when there is one. *)
Fixpoint split_nameend (s : string) : string * option string :=
  match s with
  | EmptyString => (EmptyString, None)
  | String c rest =>
    if Ascii.eqb c "="%char then (EmptyString, Some rest)
    else let (n, v) := split_nameend rest in (String c n, v)
  end.

Definition same_option (p q : long_option) : bool :=
  (has_arg p =? has_arg q) && (val p =? val q) &&
  match flag p, flag q with
  | None, None => true
  | Some a, Some b => a =? b
  | _, _ => false
  end.

(** The entry a long option name selects: the entry with exactly this
    name, else the entry the name abbreviates when all the entries it
    abbreviates agree; [None] when there is none or they differ. *)
Definition find_long_option (longopts : list long_option) (n : string)
    : option long_option :=
  match find (fun p => String.eqb (name p) n) longopts with
  | Some p => Some p
  | None =>
    match filter (fun p => String.prefix n (name p)) longopts with
    | [] => None
    | p :: others => if forallb (same_option p) others then Some p else None
    end
  end.

(** The value getopt_long returns for what it rejects. *)
Definition QUESTION_MARK : Z := 63.

(** An argument that is not an option: it does not start with '-', or it
    is "-" alone. *)
Definition NONOPTION_P (a : string) : bool :=
  match a with
  | String "-"%char (String _ _) => false
  | _ => true
  end.

(** One call of [getopt_long (argc, argv, "+", longopts, NULL)] with
    [opterr == 0], from a state in which no short option is half read:
    the returned value, [optarg] and the new [optind]. The leading '+'
    stops the scan at the first argument that is not an option; the
    option string names no short option, so every short option is
    rejected, and [optind] moves past its argument only when that was the
    argument's last character. *)
Definition getopt_long (argv : list string) (longopts : list long_option)
    (optind : nat) : Z * option string * nat :=
  match nth_error argv optind with
  | None => (-1, None, optind)
  | Some a =>
    if String.eqb a "--" then (-1, None, S optind)
    else if NONOPTION_P a then (-1, None, optind)
    else
      match a with
      | String _ (String "-"%char nextchar) =>
        let (n, value) := split_nameend nextchar in
        match find_long_option longopts n with
        | None => (QUESTION_MARK, None, S optind)
        | Some p =>
          let v := match flag p with None => val p | Some _ => 0 end in
          match value with
          | Some arg =>
            if has_arg p =? no_argument then (QUESTION_MARK, None, S optind)
            else (v, Some arg, S optind)
          | None =>
            if has_arg p =? required_argument then
              match nth_error argv (S optind) with
              | Some arg => (v, Some arg, S (S optind))
              | None => (QUESTION_MARK, None, S optind)
              end
            else (v, None, S optind)
          end
        end
      | String _ (String _ EmptyString) => (QUESTION_MARK, None, S optind)
      | _ => (QUESTION_MARK, None, optind)
      end
  end.

(* ================================================================== *)
(** ** What btrfs.c takes from the rest of the repository *)

(** The tables, constants, commands and routines that btrfs.c uses and
    other files define. [cmd_outputs] holds the names of the output
    modes, indexed by mode; [extern_fn] runs a handler of another file;
    [fixup_argv0] is the argument vector after the call of that name. *)
Class Platform : Type := Build_Platform {
  cmd_outputs : list string;
  PACKAGE_STRING : string;
  simple_command_format_flags : Z;
  cmd_struct_subvolume : cmd_struct;
  cmd_struct_filesystem : cmd_struct;
  cmd_struct_balance : cmd_struct;
  cmd_struct_device : cmd_struct;
  cmd_struct_scrub : cmd_struct;
  cmd_struct_check : cmd_struct;
  cmd_struct_rescue : cmd_struct;
  cmd_struct_restore : cmd_struct;
  cmd_struct_inspect : cmd_struct;
  cmd_struct_property : cmd_struct;
  cmd_struct_send : cmd_struct;
  cmd_struct_receive : cmd_struct;
  cmd_struct_quota : cmd_struct;
  cmd_struct_qgroup : cmd_struct;
  cmd_struct_replace : cmd_struct;
  extern_fn : string -> cmd_struct -> cmd_context -> list string -> proc Z;
  fixup_argv0 : list string -> string -> list string
}.

(** Modelled from the spec: [CMD_OUTPUT_TEXT] is an enumerator of another
    file of the repository. It is the default mode, the one a context
    starts with and the one [cmd_provides_output_format] reads as zero. *)
Definition CMD_OUTPUT_TEXT : Z := 0.

Section Program.
Context {P : Platform}.

(** The number of output modes: the length of [cmd_outputs]. *)
Definition CMD_OUTPUT_MAX : Z := Z.of_nat (List.length cmd_outputs).

(** [cmd_outputs[i]] for an index inside the table. *)
Definition cmd_output_name (i : Z) : string :=
  nth (Z.to_nat i) cmd_outputs EmptyString.

Definition btrfs_cmd_group_usage : list string :=
  ["btrfs [--help] [--version] [--format <format>] <group> [<group>...] <command> [<args>]"].

Definition btrfs_cmd_group_info : string :=
  "Use --help as an argument for information on a specific group or command.".

Definition cmd_help_usage : list string :=
  ["btrfs help [--full]";
   "Display help information";
   EmptyString;
   "--full     display detailed help on every command"].

Definition cmd_version_usage : list string :=
  ["btrfs version"; "Display btrfs-progs version"].

(** Modelled from the spec: the macro [DEFINE_SIMPLE_COMMAND] is defined
    in another file of the repository. It declares a leaf command: the
    token, the handler and usage text of that name, no nested group. *)
Definition DEFINE_SIMPLE_COMMAND (f : handler) (usage : list string)
    (tok : string) : cmd_struct :=
  {| token := tok; fn := f; usagestr := usage; next := None;
     cmd_format_flags := simple_command_format_flags |}.

Definition cmd_struct_help : cmd_struct :=
  DEFINE_SIMPLE_COMMAND Fn_cmd_help cmd_help_usage "help".

Definition cmd_struct_version : cmd_struct :=
  DEFINE_SIMPLE_COMMAND Fn_cmd_version cmd_version_usage "version".

Definition btrfs_cmd_group : cmd_group :=
  {| group_usagestr := btrfs_cmd_group_usage;
     infostr := btrfs_cmd_group_info;
     commands :=
       [cmd_struct_subvolume; cmd_struct_filesystem; cmd_struct_balance;
        cmd_struct_device; cmd_struct_scrub; cmd_struct_check;
        cmd_struct_rescue; cmd_struct_restore; cmd_struct_inspect;
        cmd_struct_property; cmd_struct_send; cmd_struct_receive;
        cmd_struct_quota; cmd_struct_qgroup; cmd_struct_replace;
        cmd_struct_help; cmd_struct_version] |}.

(** Modelled from the spec: [help_unknown_token] is defined in another
    file of the repository. It reports the unknown token and the tokens
    of the group and ends the process with status 1. *)
Definition help_unknown_token {A : Type} (arg : string) (grp : cmd_group)
    : proc A :=
  emit (Help_unknown_token arg grp) ;; exit 1.

(** Modelled from the spec: [help_ambiguous_token] is defined in another
    file of the repository. It reports the candidates of the token and
    ends the process with status 1. *)
Definition help_ambiguous_token {A : Type} (arg : string) (grp : cmd_group)
    : proc A :=
  emit (Help_ambiguous_token arg grp) ;; exit 1.

(** [parse_command_token]. A zero from [parse_one_token] always comes
    with a command; the NULL of the last case cannot be returned. *)
Definition parse_command_token (arg : string) (grp : cmd_group)
    : proc cmd_struct :=
  let (r, cmd) := parse_one_token arg grp None in
  if r =? -1 then help_unknown_token arg grp
  else if r =? -2 then help_ambiguous_token arg grp
  else match cmd with
       | Some c => ret c
       | None => abort
       end.

(** The 32-bit [int] that a mathematical integer wraps to. *)
Definition wrap_int (z : Z) : Z := (z + 2 ^ 31) mod 2 ^ 32 - 2 ^ 31.

(** [cmd_provides_output_format]. *)
Definition cmd_provides_output_format (cmd : cmd_struct)
    (cmdcxt : cmd_context) : bool :=
  if output_mode cmdcxt =? 0 then true
  else
    negb (Z.land (wrap_int (Z.shiftl 1 (output_mode cmdcxt)))
                 (cmd_format_flags cmd) =? 0).

(** [handle_help_options_next_level]; [argc] is the length of [argv]. *)
Definition handle_help_options_next_level (cmd : cmd_struct)
    (cmdcxt : cmd_context) (argv : list string) : proc unit :=
  match argv with
  | [] | [_] => ret tt
  | _ :: argv1 :: _ =>
    err <-
      (if is_NULL (next cmd) && negb (cmd_provides_output_format cmd cmdcxt)
       then
         ASSERT (0 <=? output_mode cmdcxt) ;;
         ASSERT (output_mode cmdcxt <? CMD_OUTPUT_MAX) ;;
         emit (Write stderr
                 ("error: " ++ cmd_output_name (output_mode cmdcxt)
                  ++ " output is unsupported for this command."
                  ++ LF ++ LF)) ;;
         ret 1
       else ret 0) ;;
    if (strcmp argv1 "--help" =? 0) || negb (err =? 0) then
      match next cmd with
      | Some grp => emit (Help_command_group grp (tl argv))
      | None => emit (Usage_command cmd true false)
      end ;;
      exit err
    else ret tt
  end.

(** [cmd_help] and [cmd_version], the two handlers of btrfs.c. *)
Definition cmd_help (unused : cmd_struct) (cmdcxt : cmd_context)
    (argv : list string) : proc Z :=
  emit (Help_command_group btrfs_cmd_group argv) ;; ret 0.

Definition cmd_version (unused : cmd_struct) (cmdcxt : cmd_context)
    (argv : list string) : proc Z :=
  emit (Write stdout (PACKAGE_STRING ++ LF)) ;; ret 0.

(** Modelled from the spec: [cmd_execute] is defined in another file of
    the repository. It invokes the command's handler on the arguments and
    the context and returns its status. *)
Definition cmd_execute (cmd : cmd_struct) (cmdcxt : cmd_context)
    (argv : list string) : proc Z :=
  emit (Enter_fn cmd cmdcxt argv) ;;
  match fn cmd with
  | Fn_cmd_help => cmd_help cmd cmdcxt argv
  | Fn_cmd_version => cmd_version cmd cmdcxt argv
  | Fn_extern symbol => extern_fn symbol cmd cmdcxt argv
  end.

(** [handle_command_group]. *)
Definition handle_command_group (grp : cmd_group) (cmdcxt : cmd_context)
    (argv : list string) : proc Z :=
  match tl argv with
  | [] => emit (Usage_command_group grp false false) ;; exit 1
  | (arg :: _) as argv' =>
    cmd <- parse_command_token arg grp ;;
    handle_help_options_next_level cmd cmdcxt argv' ;;
    cmd_execute cmd cmdcxt (fixup_argv0 argv' (token cmd))
  end.

(** The loop of [print_output_formats] from index [i] on. *)
Fixpoint print_output_formats_loop (outf : stream) (outputs : list string)
    (i : Z) : proc unit :=
  match outputs with
  | [] => ret tt
  | o :: outputs' =>
    emit (Write outf
            ((if i =? 0 then " " else ", ") ++ DQUOTE ++ o ++ DQUOTE)) ;;
    print_output_formats_loop outf outputs' (i + 1)
  end.

(** [print_output_formats]. *)
Definition print_output_formats (outf : stream) : proc unit :=
  emit (Write outf "Options for --format are:") ;;
  print_output_formats_loop outf cmd_outputs 0 ;;
  emit (Write outf LF) ;;
  if negb (CMD_OUTPUT_TEXT + 1 =? CMD_OUTPUT_MAX) then
    emit (Write outf
            ("Extended output formats may not be available for all commands."
             ++ LF))
  else ret tt.

(** The loop of [handle_output_format] from index [i] on: the index at
    which it breaks, [None] when it runs to [CMD_OUTPUT_MAX]. *)
Fixpoint handle_output_format_loop (format : string)
    (outputs : list string) (i : Z) : option Z :=
  match outputs with
  | [] => None
  | o :: outputs' =>
    if strcasecmp format o =? 0 then Some i
    else handle_output_format_loop format outputs' (i + 1)
  end.

(** [handle_output_format]: the context afterwards, and what the call
    does. *)
Definition handle_output_format (cmdcxt : cmd_context) (format : string)
    : cmd_context * proc unit :=
  match handle_output_format_loop format cmd_outputs 0 with
  | Some i => ({| output_mode := i |}, ret tt)
  | None =>
    ({| output_mode := CMD_OUTPUT_TEXT |},
     emit (Write stderr
             ("error: invalid output format " ++ DQUOTE ++ format ++ DQUOTE
              ++ LF ++ LF)) ;;
     emit (Usage_command_group btrfs_cmd_group false true) ;;
     print_output_formats stderr ;;
     exit 1)
  end.

Definition OPT_HELP : Z := 256.
Definition OPT_VERSION : Z := 257.
Definition OPT_FULL : Z := 258.
Definition OPT_FORMAT : Z := 259.

Definition long_options : list long_option :=
  [ {| name := "help"; has_arg := no_argument; flag := None; val := OPT_HELP |};
    {| name := "version"; has_arg := no_argument; flag := None;
       val := OPT_VERSION |};
    {| name := "format"; has_arg := required_argument; flag := None;
       val := OPT_FORMAT |};
    {| name := "full"; has_arg := no_argument; flag := None; val := OPT_FULL |} ].

(** The [while (1)] loop of [handle_global_options], from the given
    [optind]: the context afterwards, and the [optind] the loop is left
    with. Every turn that does not leave the loop moves [optind] forward,
    so [fuel] = [argc] turns are enough ([handle_global_options_total]). *)
Fixpoint handle_global_options_loop (fuel : nat) (cmdcxt : cmd_context)
    (argv : list string) (optind : nat) : cmd_context * proc nat :=
  match fuel with
  | O => (cmdcxt, abort)
  | S fuel' =>
    match getopt_long argv long_options optind with
    | (c, optarg, optind') =>
      if c <? 0 then (cmdcxt, ret optind')
      else if (c =? OPT_HELP) || (c =? OPT_VERSION) || (c =? OPT_FULL) then
        handle_global_options_loop fuel' cmdcxt argv optind'
      else if c =? OPT_FORMAT then
        match optarg with
        | None => (cmdcxt, abort)
        | Some format =>
          bind_cxt (handle_output_format cmdcxt format)
            (fun cmdcxt' _ =>
               handle_global_options_loop fuel' cmdcxt' argv optind')
        end
      else
        (cmdcxt,
         emit (Write stderr
                 ("Unknown global option: "
                  ++ nth (optind' - 1)%nat argv EmptyString ++ LF)) ;;
         exit 129)
    end
  end.

(** [handle_global_options]: the context afterwards and the returned
    shift. [optind] is 1 when the function is entered: the C library
    starts it there and the function resets it before it returns. *)
Definition handle_global_options (cmdcxt : cmd_context)
    (argv : list string) : cmd_context * proc nat :=
  match argv with
  | [] => (cmdcxt, ret O)
  | _ :: _ => handle_global_options_loop (List.length argv) cmdcxt argv 1
  end.

(** The first loop of [handle_special_globals] over the arguments that
    are left: the values of [has_help] and [has_full] at its end. *)
Fixpoint handle_special_globals_flags (args : list string)
    (has_help has_full : bool) : bool * bool :=
  match args with
  | [] => (has_help, has_full)
  | a :: args' =>
    if strcmp a "--help" =? 0 then
      handle_special_globals_flags args' true has_full
    else if strcmp a "--full" =? 0 then
      handle_special_globals_flags args' has_help true
    else handle_special_globals_flags args' has_help has_full
  end.

(** The second loop of [handle_special_globals] over the arguments that
    are left. *)
Fixpoint handle_special_globals_version (args : list string)
    (cmdcxt : cmd_context) (argv : list string) : proc unit :=
  match args with
  | [] => ret tt
  | a :: args' =>
    if strcmp a "--version" =? 0 then
      cmd_execute cmd_struct_version cmdcxt argv ;; exit 0
    else handle_special_globals_version args' cmdcxt argv
  end.

(** [handle_special_globals]. Both loops read [argv[0]] to
    [argv[shift - 1]]; with a [shift] beyond [argc] the first loop reads
    the NULL that ends [argv]. *)
Definition handle_special_globals (cmdcxt : cmd_context) (shift : nat)
    (argv : list string) : proc unit :=
  if (List.length argv <? shift)%nat then abort
  else
    let (has_help, has_full) :=
      handle_special_globals_flags (firstn shift argv) false false in
    if has_help then
      (if has_full then emit (Usage_command_group btrfs_cmd_group true false)
       else cmd_execute cmd_struct_help cmdcxt argv ;; ret tt) ;;
      print_output_formats stdout ;;
      exit 0
    else handle_special_globals_version (firstn shift argv) cmdcxt argv.

(** The part of [main] after the global options: from
    [parse_command_token] to [exit (ret)]. *)
Definition main_dispatch (cmdcxt : cmd_context) (argv : list string)
    : proc Z :=
  match argv with
  | [] => abort
  | arg :: _ =>
    cmd <- parse_command_token arg btrfs_cmd_group ;;
    handle_help_options_next_level cmd cmdcxt argv ;;
    emit Crc32c_optimization_init ;;
    ret_ <- cmd_execute cmd cmdcxt (fixup_argv0 argv (token cmd)) ;;
    emit Btrfs_close_all_devices ;;
    exit ret_
  end.

(** [main]; it never returns, the process ends in [exit]. *)
Definition main (argv : list string) : proc Z :=
  let cmdcxt := {| output_mode := CMD_OUTPUT_TEXT |} in
  emit Btrfs_config_init ;;
  match argv with
  | [] => abort
  | argv0 :: args =>
    let bname :=
      match strrchr argv0 "/"%char with
      | Some p => ptr_add p 1
      | None => argv0
      end in
    if strcmp bname "btrfsck" =? 0 then
      main_dispatch cmdcxt ("check" :: args)
    else
      let (cmdcxt', parsed) := handle_global_options cmdcxt argv in
      shift <- parsed ;;
      handle_special_globals cmdcxt' shift argv ;;
      match skipn shift argv with
      | [] => emit (Usage_command_group_short btrfs_cmd_group) ;; exit 1
      | argv' => main_dispatch cmdcxt' argv'
      end
  end.

End Program.

(* ================================================================== *)
(** ** The abbreviation candidates of a token *)

(** The commands of a list whose name starts with [arg], in the order of
    the list. *)
Definition starting_with (arg : string) (cmds : list cmd_struct)
    : list cmd_struct :=
  filter (fun c => String.prefix arg (token c)) cmds.

(** What the scan does to [abbrev_cmd] and [ambiguous_cmd] when it meets
    an abbreviation candidate. *)
Definition record_candidate (st : option cmd_struct * option cmd_struct)
    (c : cmd_struct) : option cmd_struct * option cmd_struct :=
  (Some c, match fst st with Some _ => fst st | None => snd st end).

(* ================================================================== *)
(** ** Argument vectors of recognised global options *)

(** A global option that [handle_global_options] recognises, and the
    arguments it is written as. *)
Inductive global_option : Type :=
| Opt_help
| Opt_version
| Opt_full
| Opt_format (value : string).

Definition option_args (o : global_option) : list string :=
  match o with
  | Opt_help => ["--help"]
  | Opt_version => ["--version"]
  | Opt_full => ["--full"]
  | Opt_format value => ["--format"; value]
  end.

Definition options_args (opts : list global_option) : list string :=
  flat_map option_args opts.

Definition is_format (o : global_option) : bool :=
  match o with
  | Opt_format _ => true
  | _ => false
  end.

(** The value of a [--format] names an output mode. *)
Definition format_known `{Platform} (o : global_option) : Prop :=
  match o with
  | Opt_format value => handle_output_format_loop value cmd_outputs 0 <> None
  | _ => True
  end.

(** The context after one recognised option. *)
Definition after_option `{Platform} (cmdcxt : cmd_context)
    (o : global_option) : cmd_context :=
  match o with
  | Opt_format value => fst (handle_output_format cmdcxt value)
  | _ => cmdcxt
  end.

(** The scan of the options ends at [rest]: there is no argument left,
    or the next one is not an option. *)
Definition ends_options (rest : list string) : Prop :=
  match rest with
  | [] => True
  | a :: _ => NONOPTION_P a = true
  end.

(** [getopt_long] rejects the argument at [optind] and steps over it. *)
Definition rejected_at (argv : list string) (optind : nat) : Prop :=
  getopt_long argv long_options optind = (QUESTION_MARK, None, S optind).

(** The basename that [main] computes from [argv[0]]. *)
Definition bname_of (argv0 : string) : string :=
  match strrchr argv0 "/"%char with
  | Some p => ptr_add p 1
  | None => argv0
  end.

(** The context [main] starts with. *)
Definition initial_context : cmd_context :=
  {| output_mode := CMD_OUTPUT_TEXT |}.

(** The output mode is an enumerator below [CMD_OUTPUT_MAX]: what the
    two [ASSERT]s of [handle_help_options_next_level] check. *)
Definition mode_in_range `{Platform} (cmdcxt : cmd_context) : Prop :=
  0 <= output_mode cmdcxt < CMD_OUTPUT_MAX.

(** An event that is a write to a stream. *)
Definition is_write (e : event) : Prop :=
  match e with
  | Write _ _ => True
  | _ => False
  end.

(* ================================================================== *)
(** ** Sample commands, groups and platform *)

Definition sample_leaf (tok : string) (mask : Z) : cmd_struct :=
  {| token := tok; fn := Fn_extern tok; usagestr := [tok];
     next := None; cmd_format_flags := mask |}.

Definition sample_group (cmds : list cmd_struct) : cmd_group :=
  {| group_usagestr := []; infostr := EmptyString; commands := cmds |}.

Definition check_group : cmd_group :=
  sample_group [sample_leaf "checksum" 1; sample_leaf "check" 1].

Definition send_group : cmd_group :=
  sample_group [sample_leaf "subvolume" 1; sample_leaf "send" 1].

Definition quota_group : cmd_group :=
  sample_group [sample_leaf "qgroup" 1; sample_leaf "quota" 1].

(** A group in which two commands have the same name. *)
Definition twin_group : cmd_group :=
  sample_group
    [sample_leaf "send" 1; sample_leaf "check" 1; sample_leaf "check" 3].

Definition sample_platform : Platform :=
  {| cmd_outputs := ["text"; "json"];
     PACKAGE_STRING := "btrfs-progs v5.1";
     simple_command_format_flags := 1;
     cmd_struct_subvolume := sample_leaf "subvolume" 1;
     cmd_struct_filesystem := sample_leaf "filesystem" 1;
     cmd_struct_balance := sample_leaf "balance" 1;
     cmd_struct_device := sample_leaf "device" 1;
     cmd_struct_scrub := sample_leaf "scrub" 1;
     cmd_struct_check := sample_leaf "check" 1;
     cmd_struct_rescue := sample_leaf "rescue" 1;
     cmd_struct_restore := sample_leaf "restore" 1;
     cmd_struct_inspect := sample_leaf "inspect-internal" 1;
     cmd_struct_property := sample_leaf "property" 1;
     cmd_struct_send := sample_leaf "send" 1;
     cmd_struct_receive := sample_leaf "receive" 1;
     cmd_struct_quota := sample_leaf "quota" 1;
     cmd_struct_qgroup := sample_leaf "qgroup" 3;
     cmd_struct_replace := sample_leaf "replace" 1;
     extern_fn := fun _ _ _ _ => ret 0;
     fixup_argv0 := fun argv _ => argv |}.

(* ================================================================== *)
(** ** Facts about the C library model *)

Lemma order_uchar_nonzero (c1 c2 : ascii) : order_uchar c1 c2 <> 0.
Proof. unfold order_uchar. destruct (_ <? _)%nat; discriminate. Qed.

Lemma order_uchar_eqb (c1 c2 : ascii) : (order_uchar c1 c2 =? 0) = false.
Proof. apply Z.eqb_neq, order_uchar_nonzero. Qed.

Lemma prefix_cons (a b : ascii) (s1 s2 : string) :
  String.prefix (String a s1) (String b s2)
  = Ascii.eqb b a && String.prefix s1 s2.
Proof.
  simpl. destruct (ascii_dec a b) as [->|Hne].
  - now rewrite Ascii.eqb_refl.
  - destruct (Ascii.eqb_spec b a); [congruence | reflexivity].
Qed.

Lemma prefix_empty (s : string) : String.prefix EmptyString s = true.
Proof. now destruct s. Qed.

Lemma prefix_refl (s : string) : String.prefix s s = true.
Proof.
  induction s as [|a s IH]; [reflexivity|].
  now rewrite prefix_cons, Ascii.eqb_refl.
Qed.

Lemma prefix_append (p s : string) :
  String.prefix p s = true <-> exists rest, s = p ++ rest.
Proof.
  revert s. induction p as [|a p IH]; intros s.
  - rewrite prefix_empty. split; [exists s; reflexivity | trivial].
  - destruct s as [|b s].
    + split; [discriminate | intros [rest Hr]; discriminate].
    + rewrite prefix_cons, andb_true_iff, IH. split.
      * intros [Hab [rest ->]]. apply Ascii.eqb_eq in Hab as ->. now exists rest.
      * intros [rest Hr]. injection Hr as -> ->.
        split; [apply Ascii.eqb_refl | now exists rest].
Qed.

Lemma prefix_antisym (p s : string) :
  String.prefix p s = true -> String.prefix s p = true -> p = s.
Proof.
  revert s. induction p as [|a p IH]; intros [|b s]; try discriminate; auto.
  rewrite !prefix_cons, !andb_true_iff. intros [Hab Hp] [_ Hs].
  apply Ascii.eqb_eq in Hab as ->. f_equal. now apply IH.
Qed.

Lemma strncmp_prefix (str p : string) :
  (strncmp str p (strlen p) =? 0) = String.prefix p str.
Proof.
  revert str. induction p as [|a p IH]; intros str; [now destruct str|].
  destruct str as [|b str]; [reflexivity|].
  rewrite prefix_cons. cbn [strlen String.length strncmp].
  destruct (Ascii.eqb b a).
  - apply IH.
  - apply order_uchar_eqb.
Qed.

Lemma ptr_add_append (p rest : string) : ptr_add (p ++ rest) (strlen p) = rest.
Proof. induction p as [|a p IH]; [reflexivity | exact IH]. Qed.

Lemma append_inv_head (p r1 r2 : string) : p ++ r1 = p ++ r2 -> r1 = r2.
Proof.
  induction p as [|a p IH]; [trivial|]. intros H. injection H as H. auto.
Qed.

Lemma append_empty_r (s : string) : s ++ EmptyString = s.
Proof. induction s as [|a s IH]; [reflexivity | simpl; now rewrite IH]. Qed.

Lemma strcmp_eqb (a b : string) : (strcmp a b =? 0) = String.eqb a b.
Proof.
  revert b. induction a as [|c a IH]; intros [|d b]; try reflexivity.
  simpl. destruct (Ascii.eqb c d); [apply IH | apply order_uchar_eqb].
Qed.

Lemma strcmp_eq (a b : string) : strcmp a b = 0 <-> a = b.
Proof. now rewrite <- Z.eqb_eq, strcmp_eqb, String.eqb_eq. Qed.

Lemma strcasecmp_eqb (a b : string) :
  (strcasecmp a b =? 0) = String.eqb (lowercase a) (lowercase b).
Proof.
  revert b. induction a as [|c a IH]; intros [|d b]; try reflexivity.
  simpl. destruct (Ascii.eqb (tolower c) (tolower d));
    [apply IH | apply order_uchar_eqb].
Qed.

Lemma strcasecmp_lowercase (a b : string) :
  strcasecmp a b = 0 <-> lowercase a = lowercase b.
Proof. now rewrite <- Z.eqb_eq, strcasecmp_eqb, String.eqb_eq. Qed.

Lemma prefixcmp_prefix (str p : string) :
  (prefixcmp str p =? 0) = String.prefix p str.
Proof.
  revert str. induction p as [|a p IH]; intros str; [now destruct str|].
  destruct str as [|b str]; [reflexivity|].
  rewrite prefix_cons. simpl.
  destruct (Ascii.eqb b a); [apply IH | apply order_uchar_eqb].
Qed.

(* ================================================================== *)
(** ** The token matcher *)

Lemma skip_prefix_Some (str p rest : string) :
  skip_prefix str p = Some rest <-> str = p ++ rest.
Proof.
  unfold skip_prefix. cbv zeta. rewrite strncmp_prefix. split.
  - destruct (String.prefix p str) eqn:Hp; [|discriminate].
    apply prefix_append in Hp as [r ->]. rewrite ptr_add_append.
    now intros [= ->].
  - intros ->.
    assert (String.prefix p (p ++ rest) = true) as ->
      by (apply prefix_append; now exists rest).
    now rewrite ptr_add_append.
Qed.

Lemma skip_prefix_None (str p : string) :
  skip_prefix str p = None <-> String.prefix p str = false.
Proof.
  unfold skip_prefix. cbv zeta. rewrite strncmp_prefix.
  destruct (String.prefix p str); split; congruence.
Qed.

Lemma skip_prefix_exact (s : string) : skip_prefix s s = Some EmptyString.
Proof. apply skip_prefix_Some. now rewrite append_empty_r. Qed.

Lemma parse_one_token_loop_exact (arg : string) (c : cmd_struct)
    (cmds : list cmd_struct) (ab am : option cmd_struct) :
  token c = arg -> parse_one_token_loop arg (c :: cmds) ab am = Scan_return c.
Proof. intros <-. simpl. now rewrite skip_prefix_exact. Qed.

(** An entry whose name is not the token never ends the scan: it is
    recorded when its name starts with the token and skipped otherwise. *)
Lemma parse_one_token_loop_other (arg : string) (c : cmd_struct)
    (cmds : list cmd_struct) (ab am : option cmd_struct) :
  token c <> arg ->
  parse_one_token_loop arg (c :: cmds) ab am
  = if String.prefix arg (token c)
    then parse_one_token_loop arg cmds (Some c)
           (match ab with Some _ => ab | None => am end)
    else parse_one_token_loop arg cmds ab am.
Proof.
  intros Hne. cbn [parse_one_token_loop].
  destruct (skip_prefix arg (token c)) as [rest|] eqn:Hs.
  - apply skip_prefix_Some in Hs. destruct rest as [|a rest].
    + rewrite append_empty_r in Hs. congruence.
    + destruct (String.prefix arg (token c)) eqn:Hp; [|reflexivity].
      exfalso. apply Hne. apply prefix_antisym; [|exact Hp].
      apply prefix_append. eauto.
  - now rewrite prefixcmp_prefix.
Qed.

(** Without an entry of exactly the token's name the scan runs to the
    end, and its state is the one the candidates leave, taken in order. *)
Lemma parse_one_token_loop_candidates (arg : string)
    (cmds : list cmd_struct) (ab am : option cmd_struct) :
  (forall c, In c cmds -> token c <> arg) ->
  parse_one_token_loop arg cmds ab am
  = let st := fold_left record_candidate (starting_with arg cmds) (ab, am) in
    Scan_end (fst st) (snd st).
Proof.
  revert ab am. induction cmds as [|c cmds IH]; intros ab am Hne.
  - reflexivity.
  - rewrite parse_one_token_loop_other by (apply Hne; now left).
    unfold starting_with. cbn [filter].
    destruct (String.prefix arg (token c)).
    + rewrite IH by (intros; apply Hne; now right). reflexivity.
    + apply IH. intros; apply Hne; now right.
Qed.

Lemma record_candidate_ambiguous (cands : list cmd_struct)
    (a b : cmd_struct) :
  exists x y, fold_left record_candidate cands (Some a, Some b)
              = (Some x, Some y).
Proof.
  revert a b. induction cands as [|c cands IH]; intros a b; [now exists a, b|].
  cbn [fold_left].
  change (record_candidate (Some a, Some b) c) with (Some c, Some a).
  apply IH.
Qed.

(** C1. In a command group whose names are unique, a token that is
    exactly the name of a command of the group resolves to that command:
    [parse_one_token] returns 0 with the command in [*cmd_ret], never -2
    (Ambiguous), whatever other names the token is a prefix of. The scan
    itself returns at that entry whatever abbreviation candidates
    [abbrev_cmd] and [ambiguous_cmd] hold by then. *)
Theorem parse_one_token_exact_match (grp : cmd_group) (arg : string)
    (cmd : cmd_struct) (cmd_ret : option cmd_struct) :
  NoDup (map token (commands grp)) ->
  In cmd (commands grp) ->
  token cmd = arg ->
  parse_one_token arg grp cmd_ret = (0, Some cmd)
  /\ fst (parse_one_token arg grp cmd_ret) <> -2
  /\ forall abbrev_cmd ambiguous_cmd,
       parse_one_token_loop arg (commands grp) abbrev_cmd ambiguous_cmd
       = Scan_return cmd.
Proof.
  intros Hnd Hin Harg.
  assert (Hloop : forall ab am,
             parse_one_token_loop arg (commands grp) ab am = Scan_return cmd).
  { induction (commands grp) as [|c cmds IH]; [contradiction|].
    intros ab am. inversion Hnd as [|? ? Hnotin Hnd']; subst.
    destruct Hin as [->|Hin].
    - now apply parse_one_token_loop_exact.
    - rewrite parse_one_token_loop_other.
      + destruct (String.prefix _ _); now apply IH.
      + intros Heq. apply Hnotin. rewrite Heq. now apply in_map. }
  unfold parse_one_token. rewrite Hloop. repeat split; [discriminate | exact Hloop].
Qed.

Lemma parse_one_token_exact_match_witness :
  parse_one_token "check" check_group None
  = (0, Some (sample_leaf "check" 1))
  /\ fst (parse_one_token "check" check_group None) <> -2
  /\ forall abbrev_cmd ambiguous_cmd,
       parse_one_token_loop "check" (commands check_group)
         abbrev_cmd ambiguous_cmd
       = Scan_return (sample_leaf "check" 1).
Proof.
  apply (parse_one_token_exact_match check_group "check"
           (sample_leaf "check" 1) None).
  - repeat constructor; simpl; intuition discriminate.
  - simpl. auto.
  - reflexivity.
Defined.

(** C2. When exactly one command of the group has a name that starts
    with the non-empty token, and no command has exactly the token as its
    name, [parse_one_token] returns 0 with that command in [*cmd_ret]. *)
Theorem parse_one_token_unique_prefix (grp : cmd_group) (arg : string)
    (cmd : cmd_struct) (cmd_ret : option cmd_struct) :
  arg <> EmptyString ->
  starting_with arg (commands grp) = [cmd] ->
  (forall c, In c (commands grp) -> token c <> arg) ->
  parse_one_token arg grp cmd_ret = (0, Some cmd).
Proof.
  intros _ Hone Hne. unfold parse_one_token.
  rewrite parse_one_token_loop_candidates by exact Hne.
  now rewrite Hone.
Qed.

Lemma parse_one_token_unique_prefix_witness :
  parse_one_token "sub" send_group None
  = (0, Some (sample_leaf "subvolume" 1)).
Proof.
  apply (parse_one_token_unique_prefix send_group "sub"
           (sample_leaf "subvolume" 1) None).
  - discriminate.
  - reflexivity.
  - simpl. intros c [<-|[<-|[]]]; discriminate.
Defined.

(** C3. When two or more commands of the group have names that start
    with the non-empty token, and no command has exactly the token as its
    name, [parse_one_token] returns -2 (Ambiguous) and leaves [*cmd_ret]
    as it was. *)
Theorem parse_one_token_ambiguous (grp : cmd_group) (arg : string)
    (cmd_ret : option cmd_struct) :
  arg <> EmptyString ->
  (2 <= List.length (starting_with arg (commands grp)))%nat ->
  (forall c, In c (commands grp) -> token c <> arg) ->
  parse_one_token arg grp cmd_ret = (-2, cmd_ret).
Proof.
  intros _ Htwo Hne. unfold parse_one_token.
  rewrite parse_one_token_loop_candidates by exact Hne.
  destruct (starting_with arg (commands grp)) as [|a [|b cands]];
    simpl in Htwo; try lia.
  cbn [fold_left].
  change (record_candidate (record_candidate (None, None) a) b)
    with (Some b, Some a).
  destruct (record_candidate_ambiguous cands b a) as (x & y & ->).
  reflexivity.
Qed.

Lemma parse_one_token_ambiguous_witness :
  parse_one_token "q" quota_group None = (-2, None).
Proof.
  apply (parse_one_token_ambiguous quota_group "q" None).
  - discriminate.
  - simpl. lia.
  - simpl. intros c [<-|[<-|[]]]; discriminate.
Defined.

(** A token that no name of the group starts with is not found:
    [parse_one_token] returns -1 and leaves [*cmd_ret] as it was. *)
Theorem parse_one_token_not_found (grp : cmd_group) (arg : string)
    (cmd_ret : option cmd_struct) :
  starting_with arg (commands grp) = [] ->
  parse_one_token arg grp cmd_ret = (-1, cmd_ret).
Proof.
  intros Hnone. unfold parse_one_token.
  rewrite parse_one_token_loop_candidates.
  - now rewrite Hnone.
  - intros c Hin Heq.
    assert (Hc : In c (starting_with arg (commands grp))).
    { apply filter_In. split; [exact Hin|]. rewrite Heq. apply prefix_refl. }
    rewrite Hnone in Hc. exact Hc.
Qed.

Lemma parse_one_token_not_found_witness :
  parse_one_token "frobnicate" quota_group None = (-1, None).
Proof.
  apply (parse_one_token_not_found quota_group "frobnicate" None).
  reflexivity.
Defined.

Lemma starting_with_empty (cmds : list cmd_struct) :
  starting_with EmptyString cmds = cmds.
Proof.
  induction cmds as [|c cmds IH]; [reflexivity|].
  unfold starting_with in *. cbn [filter]. rewrite prefix_empty. now f_equal.
Qed.

(** C4, as the code has it. For a command group none of whose names is
    empty, the empty token is an abbreviation of every name:
    [parse_one_token] returns -1 (NotFound) when the group has no command,
    0 with the command when it has exactly one, and -2 (Ambiguous) when it
    has two or more. *)
Theorem parse_one_token_empty_token (grp : cmd_group)
    (cmd_ret : option cmd_struct) :
  (forall c, In c (commands grp) -> token c <> EmptyString) ->
  parse_one_token EmptyString grp cmd_ret
  = match commands grp with
    | [] => (-1, cmd_ret)
    | [c] => (0, Some c)
    | _ :: _ :: _ => (-2, cmd_ret)
    end.
Proof.
  intros Hne. unfold parse_one_token.
  rewrite parse_one_token_loop_candidates by exact Hne.
  rewrite starting_with_empty.
  destruct (commands grp) as [|a [|b cmds]]; try reflexivity.
  cbn [fold_left].
  change (record_candidate (record_candidate (None, None) a) b)
    with (Some b, Some a).
  destruct (record_candidate_ambiguous cmds b a) as (x & y & ->).
  reflexivity.
Qed.

Lemma parse_one_token_empty_token_witness :
  parse_one_token EmptyString send_group None = (-2, None).
Proof.
  apply (parse_one_token_empty_token send_group None).
  simpl. intros c [<-|[<-|[]]]; discriminate.
Defined.

(** C4 fails as stated: in the group of "qgroup" and "quota" the empty
    token is Ambiguous (-2), not NotFound (-1). *)
Lemma parse_one_token_empty_token_not_notfound :
  parse_one_token EmptyString quota_group None = (-2, None)
  /\ fst (parse_one_token EmptyString quota_group None) <> -1.
Proof. split; [reflexivity | discriminate]. Qed.

(* ================================================================== *)
(** ** The output format negotiation *)

Lemma land_shiftl_1 (f m : Z) :
  0 <= m -> (Z.land (Z.shiftl 1 m) f =? 0) = negb (Z.testbit f m).
Proof.
  intros Hm. rewrite Z.shiftl_1_l.
  destruct (Z.testbit f m) eqn:Hbit; cbn [negb].
  - apply Z.eqb_neq. intros H0.
    assert (Hb : Z.testbit (Z.land (2 ^ m) f) m = true)
      by (rewrite Z.land_spec, Z.pow2_bits_true, Hbit; auto).
    rewrite H0, Z.bits_0 in Hb. discriminate.
  - apply Z.eqb_eq, Z.bits_inj'. intros n Hn.
    rewrite Z.land_spec, Z.bits_0, Z.pow2_bits_eqb by exact Hm.
    destruct (Z.eqb_spec m n) as [<-|]; [now rewrite Hbit | reflexivity].
Qed.

Lemma wrap_int_small (z : Z) : - 2 ^ 31 <= z < 2 ^ 31 -> wrap_int z = z.
Proof. intros H. unfold wrap_int. rewrite Z.mod_small; lia. Qed.

(** C9. For every command, and every context whose output mode is one
    for which C defines [1 << output_mode] on a 32-bit [int] (0 to 30),
    [cmd_provides_output_format] is true exactly when the mode is the
    default one or the bit of the mode is set in the command's
    [cmd_format_flags]. *)
Theorem cmd_provides_output_format_iff (cmd : cmd_struct)
    (cmdcxt : cmd_context) :
  0 <= output_mode cmdcxt < 31 ->
  cmd_provides_output_format cmd cmdcxt = true
  <-> output_mode cmdcxt = CMD_OUTPUT_TEXT
      \/ Z.testbit (cmd_format_flags cmd) (output_mode cmdcxt) = true.
Proof.
  intros [Hlo Hhi]. unfold cmd_provides_output_format, CMD_OUTPUT_TEXT.
  destruct (Z.eqb_spec (output_mode cmdcxt) 0) as [H0|H0].
  - split; auto.
  - assert (Hr : - 2 ^ 31 <= Z.shiftl 1 (output_mode cmdcxt) < 2 ^ 31).
    { rewrite Z.shiftl_1_l. split.
      - pose proof (Z.pow_nonneg 2 (output_mode cmdcxt)). lia.
      - apply Z.pow_lt_mono_r; lia. }
    rewrite (wrap_int_small _ Hr), (land_shiftl_1 _ _ Hlo), negb_involutive.
    split; [auto | intros [?|?]; [contradiction | assumption]].
Qed.

Lemma cmd_provides_output_format_iff_witness :
  cmd_provides_output_format (sample_leaf "qgroup" 3) {| output_mode := 1 |}
  = true
  <-> 1 = CMD_OUTPUT_TEXT \/ Z.testbit 3 1 = true.
Proof.
  apply (cmd_provides_output_format_iff (sample_leaf "qgroup" 3)
           {| output_mode := 1 |}).
  simpl. lia.
Defined.



(* ================================================================== *)
(** ** The special globals *)

Lemma print_output_formats_loop_writes (outf : stream)
    (outputs : list string) (i : Z) :
  exists tr, print_output_formats_loop outf outputs i = (tr, Returns tt)
             /\ Forall is_write tr.
Proof.
  revert i. induction outputs as [|o outputs IH]; intros i.
  - exists []. split; [reflexivity | constructor].
  - destruct (IH (i + 1)) as (tr & Heq & Hw).
    eexists. cbn [print_output_formats_loop]. rewrite Heq. cbn.
    split; [reflexivity|]. constructor; [exact I | exact Hw].
Qed.

(** [print_output_formats] only writes, and returns. *)
Lemma print_output_formats_writes {P : Platform} (outf : stream) :
  exists tr, print_output_formats outf = (tr, Returns tt)
             /\ Forall is_write tr.
Proof.
  unfold print_output_formats.
  destruct (print_output_formats_loop_writes outf cmd_outputs 0)
    as (tr & -> & Hw).
  destruct (negb (CMD_OUTPUT_TEXT + 1 =? CMD_OUTPUT_MAX)); cbn;
    eexists; (split; [reflexivity|]); constructor; try exact I;
    apply Forall_app; split; try exact Hw; repeat constructor.
Qed.

Lemma handle_special_globals_flags_spec (args : list string)
    (has_help has_full : bool) :
  handle_special_globals_flags args has_help has_full
  = (has_help || existsb (String.eqb "--help") args,
     has_full || existsb (String.eqb "--full") args).
Proof.
  revert has_help has_full.
  induction args as [|a args IH]; intros has_help has_full.
  - cbn. now rewrite !orb_false_r.
  - cbn [handle_special_globals_flags existsb]. rewrite !strcmp_eqb.
    rewrite (String.eqb_sym a "--help"), (String.eqb_sym a "--full").
    destruct (String.eqb_spec "--help" a) as [<-|Hh].
    + rewrite IH. cbn. now rewrite !orb_true_r.
    + destruct (String.eqb "--full" a); rewrite IH; cbn;
        now rewrite ?orb_true_r.
Qed.

Lemma handle_special_globals_version_spec {P : Platform}
    (args : list string) (cmdcxt : cmd_context) (argv : list string) :
  handle_special_globals_version args cmdcxt argv
  = if existsb (String.eqb "--version") args
    then cmd_execute cmd_struct_version cmdcxt argv ;; exit 0
    else ret tt.
Proof.
  induction args as [|a args IH]; [reflexivity|].
  cbn [handle_special_globals_version existsb]. rewrite strcmp_eqb.
  rewrite (String.eqb_sym a "--version").
  destruct (String.eqb "--version" a); [reflexivity | exact IH].
Qed.

Lemma print_output_formats_loop_later (outf : stream)
    (outputs : list string) (i : Z) :
  0 < i ->
  print_output_formats_loop outf outputs i
  = (map (fun o => Write outf (", " ++ DQUOTE ++ o ++ DQUOTE)) outputs,
     Returns tt).
Proof.
  revert i. induction outputs as [|o outputs IH]; intros i Hi; [reflexivity|].
  cbn [print_output_formats_loop map]. rewrite (IH (i + 1)) by lia.
  destruct (Z.eqb_spec i 0) as [H0|_]; [lia | reflexivity].
Qed.

(** Everything [print_output_formats] does, for every table of names:
    the heading, the first name after a blank and every other name after
    a comma and a blank, each between double quotes, the end of the line,
    and the note on extended formats unless the table has exactly one
    name. *)
Lemma print_output_formats_trace {P : Platform} (outf : stream) :
  print_output_formats outf
  = ((Write outf "Options for --format are:"
      :: (match cmd_outputs with
          | [] => []
          | first :: others =>
            Write outf (" " ++ DQUOTE ++ first ++ DQUOTE)
            :: map (fun o => Write outf (", " ++ DQUOTE ++ o ++ DQUOTE))
                 others
          end
          ++ Write outf LF
             :: (if (List.length cmd_outputs =? 1)%nat then []
                 else [Write outf
                         ("Extended output formats may not be available for all commands."
                          ++ LF)])))%list,
     Returns tt).
Proof.
  unfold print_output_formats, CMD_OUTPUT_MAX, CMD_OUTPUT_TEXT.
  destruct cmd_outputs as [|first others]; [reflexivity|].
  cbn [print_output_formats_loop List.length].
  rewrite (print_output_formats_loop_later outf others (0 + 1)) by lia.
  destruct others as [|o others]; [reflexivity|].
  cbn [List.length].
  assert ((0 + 1 =? Z.of_nat (S (S (List.length others)))) = false) as Hne
    by (apply Z.eqb_neq; lia).
  rewrite Hne. cbn. rewrite <- ?app_assoc. reflexivity.
Qed.

Lemma existsb_eqb_In (s : string) (l : list string) :
  existsb (String.eqb s) l = true <-> In s l.
Proof.
  rewrite existsb_exists. split.
  - intros (x & Hin & Heq). apply String.eqb_eq in Heq. now subst.
  - intros Hin. exists s. split; [exact Hin | apply String.eqb_refl].
Qed.

(** C7. Over the first [shift] arguments of the vector: when "--help"
    is among them (with or without "--version"), [handle_special_globals]
    renders the help (the full usage with "--full", else it runs the help
    command), then prints the list of the --format values on stdout (the
    heading, every name of [cmd_outputs] between double quotes, the end
    of the line and the note on extended formats) and exits with status
    0, and the version command is never entered; when "--help" is not
    among them and "--version" is, it runs the version command and exits
    with status 0. *)
Theorem handle_special_globals_help_first {P : Platform}
    (cmdcxt : cmd_context) (shift : nat) (argv : list string) :
  (shift <= List.length argv)%nat ->
  (In "--help" (firstn shift argv) ->
   handle_special_globals cmdcxt shift argv
   = (((if existsb (String.eqb "--full") (firstn shift argv)
        then [Usage_command_group btrfs_cmd_group true false]
        else [Enter_fn cmd_struct_help cmdcxt argv;
              Help_command_group btrfs_cmd_group argv])
       ++ Write stdout "Options for --format are:"
          :: (match cmd_outputs with
              | [] => []
              | first :: others =>
                Write stdout (" " ++ DQUOTE ++ first ++ DQUOTE)
                :: map (fun o => Write stdout (", " ++ DQUOTE ++ o ++ DQUOTE))
                     others
              end
              ++ Write stdout LF
                 :: (if (List.length cmd_outputs =? 1)%nat then []
                     else [Write stdout
                             ("Extended output formats may not be available for all commands."
                              ++ LF)])))%list,
      Exits 0)
   /\ forall c a,
        ~ In (Enter_fn cmd_struct_version c a)
             (trace (handle_special_globals cmdcxt shift argv)))
  /\ (~ In "--help" (firstn shift argv) ->
      In "--version" (firstn shift argv) ->
      handle_special_globals cmdcxt shift argv
      = ([Enter_fn cmd_struct_version cmdcxt argv;
          Write stdout (PACKAGE_STRING ++ LF)],
         Exits 0)).
Proof.
  intros Hshift. unfold handle_special_globals.
  assert ((List.length argv <? shift)%nat = false) as ->
    by (apply Nat.ltb_ge; exact Hshift).
  rewrite handle_special_globals_flags_spec, !orb_false_l. split.
  - intros Hhelp. apply existsb_eqb_In in Hhelp. rewrite Hhelp.
    destruct (print_output_formats_writes stdout) as (tr & Hpr & Hw).
    assert (Heq :
      ((if existsb (String.eqb "--full") (firstn shift argv)
        then emit (Usage_command_group btrfs_cmd_group true false)
        else cmd_execute cmd_struct_help cmdcxt argv ;; ret tt) ;;
       print_output_formats stdout ;; exit 0)
      = (((if existsb (String.eqb "--full") (firstn shift argv)
           then [Usage_command_group btrfs_cmd_group true false]
           else [Enter_fn cmd_struct_help cmdcxt argv;
                 Help_command_group btrfs_cmd_group argv])
          ++ trace (print_output_formats stdout))%list,
         (Exits 0 : outcome unit))).
    { rewrite Hpr.
      destruct (existsb (String.eqb "--full") (firstn shift argv)); cbn;
        now rewrite app_nil_r. }
    rewrite Heq. split.
    + now rewrite (print_output_formats_trace stdout).
    + intros c a Hin. cbn [trace fst] in Hin. rewrite Hpr in Hin.
      apply in_app_or in Hin as [Hin|Hin].
      * destruct (existsb (String.eqb "--full") (firstn shift argv));
          cbn in Hin; intuition discriminate.
      * cbn in Hin. rewrite Forall_forall in Hw. exact (Hw _ Hin).
  - intros Hnohelp Hver.
    destruct (existsb (String.eqb "--help") (firstn shift argv)) eqn:Hh.
    + apply existsb_eqb_In in Hh. contradiction.
    + rewrite handle_special_globals_version_spec.
      apply existsb_eqb_In in Hver. rewrite Hver. reflexivity.
Qed.

Lemma handle_special_globals_help_first_witness :
  @handle_special_globals sample_platform initial_context 3
    ["btrfs"; "--version"; "--help"; "quota"]
  = ([Enter_fn (@cmd_struct_help sample_platform) initial_context
        ["btrfs"; "--version"; "--help"; "quota"];
      Help_command_group (@btrfs_cmd_group sample_platform)
        ["btrfs"; "--version"; "--help"; "quota"];
      Write stdout "Options for --format are:";
      Write stdout (" " ++ DQUOTE ++ "text" ++ DQUOTE);
      Write stdout (", " ++ DQUOTE ++ "json" ++ DQUOTE);
      Write stdout LF;
      Write stdout
        ("Extended output formats may not be available for all commands."
         ++ LF)],
     Exits 0)
  /\ forall c a,
       ~ In (Enter_fn (@cmd_struct_version sample_platform) c a)
            (trace (@handle_special_globals sample_platform initial_context 3
                      ["btrfs"; "--version"; "--help"; "quota"])).
Proof.
  refine (proj1 (@handle_special_globals_help_first sample_platform
                   initial_context 3
                   ["btrfs"; "--version"; "--help"; "quota"] _) _).
  - simpl. lia.
  - simpl. auto.
Defined.

(* ================================================================== *)
(** ** The global options *)

(** The loop of [handle_output_format] breaks at the first name that
    [format] matches without regard to case. *)
Lemma handle_output_format_loop_first (format : string)
    (outputs : list string) (i0 : Z) (k : nat) (name_k : string) :
  nth_error outputs k = Some name_k ->
  lowercase format = lowercase name_k ->
  (forall j other, (j < k)%nat -> nth_error outputs j = Some other ->
                   lowercase format <> lowercase other) ->
  handle_output_format_loop format outputs i0 = Some (i0 + Z.of_nat k).
Proof.
  revert i0 k. induction outputs as [|o outputs IH]; intros i0 k Hk Hm Hfirst.
  - destruct k; discriminate.
  - cbn [handle_output_format_loop]. rewrite strcasecmp_eqb.
    destruct k as [|k].
    + injection Hk as ->. rewrite Hm, String.eqb_refl. f_equal. lia.
    + destruct (String.eqb_spec (lowercase format) (lowercase o)) as [He|_].
      * exfalso. apply (Hfirst O o); [lia | reflexivity | exact He].
      * rewrite (IH (i0 + 1) k Hk Hm).
        -- f_equal. lia.
        -- intros j other Hj Hn. apply (Hfirst (S j) other); [lia | exact Hn].
Qed.

Lemma handle_output_format_loop_none (format : string)
    (outputs : list string) (i0 : Z) :
  (forall other, In other outputs -> lowercase format <> lowercase other) ->
  handle_output_format_loop format outputs i0 = None.
Proof.
  revert i0. induction outputs as [|o outputs IH]; intros i0 Hno.
  - reflexivity.
  - cbn [handle_output_format_loop]. rewrite strcasecmp_eqb.
    destruct (String.eqb_spec (lowercase format) (lowercase o)) as [He|_].
    + exfalso. apply (Hno o); [now left | exact He].
    + apply IH. intros other Hin. apply Hno. now right.
Qed.

Lemma handle_output_format_known {P : Platform} (cmdcxt : cmd_context)
    (format : string) (i : Z) :
  handle_output_format_loop format cmd_outputs 0 = Some i ->
  handle_output_format cmdcxt format = ({| output_mode := i |}, ret tt).
Proof. intros H. unfold handle_output_format. now rewrite H. Qed.

Lemma handle_output_format_unknown {P : Platform} (cmdcxt : cmd_context)
    (format : string) :
  handle_output_format_loop format cmd_outputs 0 = None ->
  handle_output_format cmdcxt format
  = ({| output_mode := CMD_OUTPUT_TEXT |},
     ((Write stderr
         ("error: invalid output format " ++ DQUOTE ++ format ++ DQUOTE
          ++ LF ++ LF)
       :: Usage_command_group btrfs_cmd_group false true
       :: trace (print_output_formats stderr))%list,
      Exits 1)).
Proof.
  intros H. unfold handle_output_format. rewrite H.
  destruct (print_output_formats_writes stderr) as (tr & -> & _).
  cbn. now rewrite app_nil_r.
Qed.

Lemma nth_error_middle (pre : list string) (a : string)
    (post : list string) :
  nth_error (pre ++ a :: post) (List.length pre) = Some a.
Proof. now rewrite nth_error_app2, Nat.sub_diag by lia. Qed.

Lemma nth_error_middle_next (pre : list string) (a b : string)
    (post : list string) :
  nth_error (pre ++ a :: b :: post) (S (List.length pre)) = Some b.
Proof.
  rewrite nth_error_app2 by lia.
  now replace (S (List.length pre) - List.length pre)%nat with 1%nat by lia.
Qed.

(** [getopt_long] at a recognised option that stands at [optind]. *)
Lemma getopt_long_option (pre : list string) (o : global_option)
    (post : list string) :
  getopt_long (pre ++ option_args o ++ post) long_options (List.length pre)
  = match o with
    | Opt_help => (OPT_HELP, None, S (List.length pre))
    | Opt_version => (OPT_VERSION, None, S (List.length pre))
    | Opt_full => (OPT_FULL, None, S (List.length pre))
    | Opt_format value => (OPT_FORMAT, Some value, S (S (List.length pre)))
    end.
Proof.
  unfold getopt_long.
  destruct o; cbn [option_args app]; rewrite ?nth_error_middle_next;
    rewrite nth_error_middle; reflexivity.
Qed.

(** [getopt_long] where the options end. *)
Lemma getopt_long_end (pre rest : list string) :
  ends_options rest ->
  getopt_long (pre ++ rest) long_options (List.length pre)
  = (-1, None, List.length pre).
Proof.
  intros Hend. unfold getopt_long.
  rewrite nth_error_app2, Nat.sub_diag by lia.
  destruct rest as [|a rest]; [reflexivity|]. cbn [nth_error].
  cbn [ends_options] in Hend. rewrite Hend.
  destruct (String.eqb_spec a "--") as [->|_]; [discriminate | reflexivity].
Qed.

Lemma options_args_length (opts : list global_option) :
  (List.length opts <= List.length (options_args opts))%nat.
Proof.
  induction opts as [|o opts IH]; [apply le_n|].
  unfold options_args in *. cbn [flat_map]. rewrite length_app.
  destruct o; cbn [option_args List.length]; lia.
Qed.

(** The loop of [handle_global_options] steps over recognised options
    whose formats are known, one turn for each, and leaves the context
    that they produce one after the other. *)
Lemma handle_global_options_loop_options {P : Platform}
    (opts : list global_option) :
  forall (fuel : nat) (cmdcxt : cmd_context) (pre rest : list string),
  Forall format_known opts ->
  handle_global_options_loop (List.length opts + fuel) cmdcxt
    (pre ++ options_args opts ++ rest) (List.length pre)
  = handle_global_options_loop fuel (fold_left after_option opts cmdcxt)
      (pre ++ options_args opts ++ rest)
      (List.length pre + List.length (options_args opts)).
Proof.
  induction opts as [|o opts IH]; intros fuel cmdcxt pre rest Hknown.
  - cbn. now rewrite Nat.add_0_r.
  - inversion Hknown as [|? ? Ho Hknown']; subst.
    cbn [List.length Nat.add handle_global_options_loop].
    unfold options_args. cbn [flat_map]. fold (options_args opts).
    rewrite <- (app_assoc (option_args o)).
    rewrite getopt_long_option.
    rewrite (app_assoc pre (option_args o)).
    specialize (IH fuel) with (pre := (pre ++ option_args o)%list)
                              (rest := rest).
    rewrite !length_app in *.
    destruct o as [| | |value];
      cbn [option_args List.length after_option fold_left] in *;
      unfold OPT_HELP, OPT_VERSION, OPT_FULL, OPT_FORMAT;
      cbn [Z.ltb Z.eqb Z.compare Pos.compare Pos.compare_cont Pos.eqb orb].
    1-3: replace (S (List.length pre)) with (List.length pre + 1)%nat by lia;
      rewrite (IH cmdcxt Hknown'); f_equal; lia.
    cbn [format_known] in Ho.
    destruct (handle_output_format_loop value cmd_outputs 0) as [i|] eqn:Hi;
      [|congruence].
    rewrite (handle_output_format_known cmdcxt value i Hi).
    cbn [bind_cxt ret fst].
    replace (S (S (List.length pre))) with (List.length pre + 2)%nat by lia.
    rewrite (IH {| output_mode := i |} Hknown').
    replace (List.length pre + (2 + List.length (options_args opts)))%nat
      with (List.length pre + 2 + List.length (options_args opts))%nat
      by lia.
    destruct (handle_global_options_loop fuel _ _ _) as [c' [tr' o']].
    reflexivity.
Qed.

Lemma handle_global_options_fuel (prog : string)
    (opts : list global_option) (rest : list string) :
  exists k,
    List.length (prog :: options_args opts ++ rest)
    = (List.length opts + S k)%nat.
Proof.
  exists (List.length (options_args opts) - List.length opts
          + List.length rest)%nat.
  pose proof (options_args_length opts).
  cbn [List.length]. rewrite length_app. lia.
Qed.

(** Recognised options with known formats, up to the first argument
    that is not an option: [handle_global_options] returns the index of
    that argument and leaves the context the options produce. *)
Lemma handle_global_options_options {P : Platform} (cmdcxt : cmd_context)
    (prog : string) (opts : list global_option) (rest : list string) :
  Forall format_known opts ->
  ends_options rest ->
  handle_global_options cmdcxt (prog :: options_args opts ++ rest)
  = (fold_left after_option opts cmdcxt,
     ret (S (List.length (options_args opts)))).
Proof.
  intros Hknown Hend. unfold handle_global_options.
  destruct (handle_global_options_fuel prog opts rest) as [k ->].
  change (prog :: options_args opts ++ rest)%list
    with ([prog] ++ options_args opts ++ rest)%list.
  pose proof (handle_global_options_loop_options opts (S k) cmdcxt [prog]
                rest Hknown) as Hskip.
  cbn [List.length] in Hskip. rewrite Hskip.
  cbn [handle_global_options_loop].
  change 1%nat with (List.length [prog]) at 1.
  rewrite app_assoc, <- length_app, getopt_long_end by exact Hend.
  rewrite length_app. reflexivity.
Qed.

(** Recognised options with known formats, then an argument that
    [getopt_long] rejects and steps over: [handle_global_options] names
    that argument on stderr and exits with status 129. *)
Lemma handle_global_options_rejected {P : Platform} (cmdcxt : cmd_context)
    (prog : string) (opts : list global_option) (bad : string)
    (rest : list string) :
  Forall format_known opts ->
  rejected_at (prog :: options_args opts ++ bad :: rest)
              (S (List.length (options_args opts))) ->
  handle_global_options cmdcxt (prog :: options_args opts ++ bad :: rest)
  = (fold_left after_option opts cmdcxt,
     ([Write stderr ("Unknown global option: " ++ bad ++ LF)], Exits 129)).
Proof.
  intros Hknown Hrej. unfold handle_global_options.
  destruct (handle_global_options_fuel prog opts (bad :: rest)) as [k ->].
  unfold rejected_at in Hrej. revert Hrej.
  change (prog :: options_args opts ++ bad :: rest)%list
    with ([prog] ++ options_args opts ++ bad :: rest)%list.
  intros Hrej.
  pose proof (handle_global_options_loop_options opts (S k) cmdcxt [prog]
                (bad :: rest) Hknown) as Hskip.
  cbn [List.length] in Hskip. rewrite Hskip.
  cbn [handle_global_options_loop List.length Nat.add]. rewrite Hrej.
  unfold QUESTION_MARK, OPT_HELP, OPT_VERSION, OPT_FULL, OPT_FORMAT.
  cbn [Z.ltb Z.eqb Z.compare Pos.compare Pos.compare_cont Pos.eqb orb].
  replace (nth (S (S (List.length (options_args opts))) - 1)
             ([prog] ++ options_args opts ++ bad :: rest) EmptyString)
    with bad; [reflexivity|].
  symmetry. apply nth_error_nth.
  rewrite app_assoc.
  replace (S (S (List.length (options_args opts))) - 1)%nat
    with (List.length ([prog] ++ options_args opts))
    by (rewrite length_app; cbn [List.length]; lia).
  apply nth_error_middle.
Qed.

(** The context after a run of options is the one the last [--format]
    among them sets. *)
Lemma fold_after_option_last {P : Platform}
    (opts1 opts2 : list global_option) (value : string) (i : Z)
    (cmdcxt : cmd_context) :
  handle_output_format_loop value cmd_outputs 0 = Some i ->
  Forall (fun o => is_format o = false) opts2 ->
  fold_left after_option (opts1 ++ Opt_format value :: opts2) cmdcxt
  = {| output_mode := i |}.
Proof.
  intros Hi Hno. rewrite fold_left_app. cbn [fold_left after_option].
  rewrite (handle_output_format_known _ value i Hi). cbn [fst].
  generalize {| output_mode := i |} as c.
  induction Hno as [|o opts2 Ho Hno IH]; intros c; [reflexivity|].
  cbn [fold_left]. destruct o; try discriminate; apply IH.
Qed.

Lemma format_known_app {P : Platform} (opts1 opts2 : list global_option)
    (value : string) (i : Z) :
  Forall format_known opts1 ->
  handle_output_format_loop value cmd_outputs 0 = Some i ->
  Forall (fun o => is_format o = false) opts2 ->
  Forall format_known (opts1 ++ Opt_format value :: opts2).
Proof.
  intros H1 Hi H2. apply Forall_app. split; [exact H1|].
  constructor; [cbn; congruence|].
  eapply Forall_impl; [|exact H2]. intros [| | |v]; cbn; auto; discriminate.
Qed.

(** C5. [handle_output_format] looks the value up without regard to
    case, in the order of [cmd_outputs]:
    - when the value matches the name at index [i] and none before it, the
      output mode of the context becomes [i], nothing is printed and the
      call returns;
    - when it matches no name, the output mode becomes [CMD_OUTPUT_TEXT],
      the diagnostic that names the value, the usage of the top group and
      the list of formats go to stderr, and the process exits with
      status 1;
    - when [--format] is repeated among the leading options, all with
      known values, the context that [handle_global_options] leaves has
      the mode of the last one. *)
Theorem handle_output_format_lookup {P : Platform} :
  (forall (cmdcxt : cmd_context) (format : string) (i : nat)
          (name_i : string),
      nth_error cmd_outputs i = Some name_i ->
      lowercase format = lowercase name_i ->
      (forall j other, (j < i)%nat -> nth_error cmd_outputs j = Some other ->
                       lowercase format <> lowercase other) ->
      handle_output_format cmdcxt format
      = ({| output_mode := Z.of_nat i |}, ret tt))
  /\ (forall (cmdcxt : cmd_context) (format : string),
         (forall other, In other cmd_outputs ->
                        lowercase format <> lowercase other) ->
         handle_output_format cmdcxt format
         = ({| output_mode := CMD_OUTPUT_TEXT |},
            ((Write stderr
                ("error: invalid output format " ++ DQUOTE ++ format
                 ++ DQUOTE ++ LF ++ LF)
              :: Usage_command_group btrfs_cmd_group false true
              :: trace (print_output_formats stderr))%list,
             Exits 1)))
  /\ (forall (cmdcxt : cmd_context) (prog : string)
             (opts1 opts2 : list global_option) (value : string) (i : Z)
             (rest : list string),
         Forall format_known opts1 ->
         handle_output_format_loop value cmd_outputs 0 = Some i ->
         Forall (fun o => is_format o = false) opts2 ->
         ends_options rest ->
         handle_global_options cmdcxt
           (prog :: options_args (opts1 ++ Opt_format value :: opts2) ++ rest)
         = ({| output_mode := i |},
            ret (S (List.length
                      (options_args (opts1 ++ Opt_format value :: opts2)))))).
Proof.
  repeat split.
  - intros cmdcxt format i name_i Hn Hm Hfirst.
    apply handle_output_format_known.
    now rewrite (handle_output_format_loop_first format cmd_outputs 0 i name_i).
  - intros cmdcxt format Hno. apply handle_output_format_unknown.
    now apply handle_output_format_loop_none.
  - intros cmdcxt prog opts1 opts2 value i rest H1 Hi H2 Hend.
    rewrite handle_global_options_options;
      [| now apply (format_known_app opts1 opts2 value i) | exact Hend].
    now rewrite (fold_after_option_last opts1 opts2 value i).
Qed.

Lemma handle_output_format_lookup_witness :
  @handle_global_options sample_platform initial_context
    ["btrfs"; "--format"; "TEXT"; "--format"; "Json"; "--full"; "quota"]
  = ({| output_mode := 1 |}, ret 6%nat).
Proof.
  apply (proj2 (proj2 (@handle_output_format_lookup sample_platform))
           initial_context "btrfs" [Opt_format "TEXT"] [Opt_full] "Json" 1
           ["quota"]).
  - repeat constructor. cbn. discriminate.
  - reflexivity.
  - repeat constructor.
  - reflexivity.
Defined.

(** A name that no long option starts with selects no option. *)
Lemma find_long_option_none (longopts : list long_option) (n : string) :
  (forall p, In p longopts -> String.prefix n (name p) = false) ->
  find_long_option longopts n = None.
Proof.
  intros Hno. unfold find_long_option.
  destruct (find _ longopts) as [q|] eqn:Hf.
  - apply find_some in Hf as [Hin Heq]. apply String.eqb_eq in Heq.
    specialize (Hno q Hin). rewrite Heq, prefix_refl in Hno. discriminate.
  - destruct (filter _ longopts) as [|q others] eqn:Hfl; [reflexivity|].
    assert (Hin : In q (filter (fun p => String.prefix n (name p)) longopts))
      by (rewrite Hfl; now left).
    apply filter_In in Hin as [Hin Hp]. rewrite (Hno q Hin) in Hp.
    discriminate.
Qed.

(** A long option whose name (the text between the dashes and the first
    '=') no option of [long_options] starts with is rejected and stepped
    over: "--bogus", "--bogus=1", "--helpful". *)
Lemma getopt_long_unknown_name (pre : list string) (text : string)
    (post : list string) :
  text <> EmptyString ->
  (forall p, In p long_options ->
             String.prefix (fst (split_nameend text)) (name p) = false) ->
  rejected_at (pre ++ ("--" ++ text) :: post) (List.length pre).
Proof.
  intros Hne Hno. unfold rejected_at, getopt_long.
  rewrite nth_error_middle.
  destruct text as [|t text]; [congruence|]. cbn [String.append].
  change (String.eqb (String "-" (String "-" (String t text))) "--")
    with false.
  cbv beta iota delta [NONOPTION_P].
  destruct (split_nameend (String t text)) as [n value] eqn:Hsplit.
  cbn [fst] in Hno. now rewrite (find_long_option_none _ _ Hno).
Qed.

(** C6, as the code has it. When the leading options are --help,
    --version, --full and --format with known values, up to an argument
    that [getopt_long] rejects and steps over, [handle_global_options]
    writes the diagnostic that names that argument and exits with status
    129; [main] (not run as btrfsck) ends there, right after
    [btrfs_config_init]: no token is resolved and no command is run. *)
Theorem handle_global_options_unknown_option {P : Platform}
    (cmdcxt : cmd_context) (prog : string) (opts : list global_option)
    (bad : string) (rest : list string) :
  Forall format_known opts ->
  rejected_at (prog :: options_args opts ++ bad :: rest)
              (S (List.length (options_args opts))) ->
  handle_global_options cmdcxt (prog :: options_args opts ++ bad :: rest)
  = (fold_left after_option opts cmdcxt,
     ([Write stderr ("Unknown global option: " ++ bad ++ LF)], Exits 129))
  /\ (strcmp (bname_of prog) "btrfsck" <> 0 ->
      main (prog :: options_args opts ++ bad :: rest)
      = ([Btrfs_config_init;
          Write stderr ("Unknown global option: " ++ bad ++ LF)],
         Exits 129)).
Proof.
  intros Hknown Hrej. split.
  - now apply handle_global_options_rejected.
  - intros Hprog. apply Z.eqb_neq in Hprog. unfold main.
    fold (bname_of prog). rewrite Hprog.
    rewrite (handle_global_options_rejected _ prog opts bad rest Hknown Hrej).
    reflexivity.
Qed.

Lemma handle_global_options_unknown_option_witness :
  @handle_global_options sample_platform initial_context
    ["/usr/bin/btrfs"; "--format"; "json"; "--bogus"; "quota"]
  = ({| output_mode := 1 |},
     ([Write stderr ("Unknown global option: --bogus" ++ LF)], Exits 129))
  /\ (strcmp (bname_of "/usr/bin/btrfs") "btrfsck" <> 0 ->
      @main sample_platform
        ["/usr/bin/btrfs"; "--format"; "json"; "--bogus"; "quota"]
      = ([Btrfs_config_init;
          Write stderr ("Unknown global option: --bogus" ++ LF)],
         Exits 129)).
Proof.
  apply (@handle_global_options_unknown_option sample_platform
           initial_context "/usr/bin/btrfs" [Opt_format "json"] "--bogus"
           ["quota"]).
  - repeat constructor. cbn. discriminate.
  - reflexivity.
Defined.

(** C6 fails as stated: "--bogus" is among the leading options, but the
    unknown value of the --format before it ends the process first, with
    status 1 and another diagnostic. *)
Lemma handle_global_options_unknown_option_after_bad_format :
  result (snd (@handle_global_options sample_platform initial_context
                 ["btrfs"; "--format"; "bogus"; "--bogus"; "quota"]))
  = Exits 1
  /\ result (@main sample_platform
               ["btrfs"; "--format"; "bogus"; "--bogus"; "quota"])
     <> Exits 129.
Proof. split; [reflexivity | discriminate]. Qed.

(** C10. A context whose output mode is 0 passes
    [cmd_provides_output_format] for every command, whatever its
    [cmd_format_flags]; a --format value that matches the first name of
    [cmd_outputs] leaves exactly the context [main] starts with, so the
    request cannot be told from no request; and with that mode
    [handle_help_options_next_level] never takes the unsupported-format
    exit: it returns, or exits with status 0 on "--help". *)
Theorem text_mode_always_provided {P : Platform} :
  (forall (cmd : cmd_struct) (cmdcxt : cmd_context),
      output_mode cmdcxt = 0 ->
      cmd_provides_output_format cmd cmdcxt = true)
  /\ (forall (cmdcxt : cmd_context) (format name0 : string)
             (others : list string),
         cmd_outputs = name0 :: others ->
         strcasecmp format name0 = 0 ->
         handle_output_format cmdcxt format = (initial_context, ret tt))
  /\ (forall (cmd : cmd_struct) (cmdcxt : cmd_context)
             (argv : list string),
         output_mode cmdcxt = 0 ->
         handle_help_options_next_level cmd cmdcxt argv = ret tt
         \/ result (handle_help_options_next_level cmd cmdcxt argv)
            = Exits 0).
Proof.
  repeat split.
  - intros cmd cmdcxt H0. unfold cmd_provides_output_format. now rewrite H0.
  - intros cmdcxt format name0 others Hout Hcmp.
    unfold handle_output_format. rewrite Hout.
    cbn [handle_output_format_loop]. now rewrite Hcmp.
  - intros cmd cmdcxt argv H0. unfold handle_help_options_next_level.
    destruct argv as [|argv0 [|argv1 rest]]; auto.
    unfold cmd_provides_output_format. rewrite H0.
    cbn [Z.eqb negb andb]. rewrite andb_false_r. cbn [bind ret].
    destruct (strcmp argv1 "--help" =? 0); [right | left; reflexivity].
    now destruct (next cmd).
Qed.

Lemma text_mode_always_provided_witness :
  @handle_output_format sample_platform {| output_mode := 1 |} "TEXT"
  = (initial_context, ret tt).
Proof.
  apply (proj1 (proj2 (@text_mode_always_provided sample_platform))
           {| output_mode := 1 |} "TEXT" "text" ["json"]).
  - reflexivity.
  - reflexivity.
Defined.

(* ================================================================== *)
(** ** [handle_global_options] always ends *)

Lemma find_long_option_In (longopts : list long_option) (n : string)
    (p : long_option) :
  find_long_option longopts n = Some p -> In p longopts.
Proof.
  unfold find_long_option.
  destruct (find _ longopts) as [q|] eqn:Hf.
  - intros [= <-]. now apply find_some in Hf.
  - destruct (filter _ longopts) as [|q others] eqn:Hfl; [discriminate|].
    destruct (forallb _ others); [|discriminate]. intros [= <-].
    assert (Hin : In q (filter (fun p => String.prefix n (name p)) longopts))
      by (rewrite Hfl; now left).
    now apply filter_In in Hin.
Qed.

(** A call of [getopt_long] that returns one of the four option values
    has moved [optind] forward, inside the vector, and has an argument
    in [optarg] when the value is [OPT_FORMAT]. *)
Lemma getopt_long_progress (argv : list string) (optind : nat) (c : Z)
    (optarg : option string) (optind' : nat) :
  getopt_long argv long_options optind = (c, optarg, optind') ->
  c = OPT_HELP \/ c = OPT_VERSION \/ c = OPT_FULL \/ c = OPT_FORMAT ->
  (optind < optind' <= List.length argv)%nat
  /\ (c = OPT_FORMAT -> optarg <> None).
Proof.
  unfold getopt_long, OPT_HELP, OPT_VERSION, OPT_FULL, OPT_FORMAT,
    QUESTION_MARK.
  destruct (nth_error argv optind) as [a|] eqn:Ha;
    [|intros [= <- _ _]; lia].
  assert (Hlt : (optind < List.length argv)%nat)
    by (apply nth_error_Some; congruence).
  destruct (String.eqb a "--"); [intros [= <- _ _]; lia|].
  destruct (NONOPTION_P a); [intros [= <- _ _]; lia|].
  destruct a as [|a0 [|a1 nextchar]]; try (intros [= <- _ _]; lia).
  destruct (Ascii.eqb_spec a1 "-"%char) as [->|Hdash].
  - cbv beta iota.
    destruct (split_nameend nextchar) as [n value].
    destruct (find_long_option long_options n) as [p|] eqn:Hp;
      [|intros [= <- _ _]; lia].
    apply find_long_option_In in Hp. unfold long_options in Hp.
    cbn [In] in Hp.
    assert (Hnext : nth_error argv (S optind) <> None ->
                    (S optind < List.length argv)%nat)
      by apply nth_error_Some.
    destruct (nth_error argv (S optind)) as [arg'|];
      destruct Hp as [<-|[<-|[<-|[<-|[]]]]];
      destruct value as [arg|]; cbn;
      intros [= <- <- <-]; intros Hc;
      (split; [try (assert (Some arg' <> None) as Hs by discriminate;
                    specialize (Hnext Hs)); lia
              | discriminate || lia]).
  - destruct a1 as [[] [] [] [] [] [] [] []];
      try (destruct nextchar; intros [= <- _ _]; lia).
    now elim Hdash.
Qed.

Lemma handle_output_format_ends {P : Platform} (cmdcxt : cmd_context)
    (format : string) :
  snd (handle_output_format cmdcxt format) = ret tt
  \/ result (snd (handle_output_format cmdcxt format)) = Exits 1.
Proof.
  destruct (handle_output_format_loop format cmd_outputs 0) as [i|] eqn:Hi.
  - left. now rewrite (handle_output_format_known cmdcxt format i Hi).
  - right. now rewrite (handle_output_format_unknown cmdcxt format Hi).
Qed.

Lemma handle_global_options_loop_total {P : Platform} (fuel : nat) :
  forall (cmdcxt : cmd_context) (argv : list string) (optind : nat),
  (optind <= List.length argv)%nat ->
  (List.length argv < fuel + optind)%nat ->
  result (snd (handle_global_options_loop fuel cmdcxt argv optind))
  <> Aborts.
Proof.
  induction fuel as [|fuel IH]; intros cmdcxt argv optind Hle Hfuel; [lia|].
  cbn [handle_global_options_loop].
  destruct (getopt_long argv long_options optind) as [[c optarg] optind']
    eqn:Hg.
  pose proof (getopt_long_progress argv optind c optarg optind' Hg) as Hprog.
  destruct (c <? 0); [discriminate|].
  destruct (Z.eqb_spec c OPT_HELP) as [Hc|_];
    [apply IH; destruct Hprog as [? _]; auto; lia|].
  destruct (Z.eqb_spec c OPT_VERSION) as [Hc|_];
    [apply IH; destruct Hprog as [? _]; auto; lia|].
  destruct (Z.eqb_spec c OPT_FULL) as [Hc|_];
    [apply IH; destruct Hprog as [? _]; auto; lia|].
  cbn [orb].
  destruct (Z.eqb_spec c OPT_FORMAT) as [Hc|_]; [|discriminate].
  destruct Hprog as [Hrange Harg]; auto.
  destruct optarg as [format|]; [|now elim (Harg Hc)].
  specialize (IH (fst (handle_output_format cmdcxt format)) argv optind').
  destruct (handle_output_format_ends cmdcxt format) as [Hret|Hexit].
  - destruct (handle_output_format cmdcxt format) as [c' m].
    cbn [snd fst] in *. subst m. cbn [bind_cxt ret].
    destruct (handle_global_options_loop fuel c' argv optind')
      as [c'' [tr o]].
    cbn [snd result] in *. apply IH; lia.
  - destruct (handle_output_format cmdcxt format) as [c' [tr o]].
    cbn [snd result] in Hexit. subst o. discriminate.
Qed.

(** [handle_global_options] returns a shift or exits for every context
    and argument vector: its loop never runs out of turns, and [optarg]
    is never NULL when it is read. *)
Lemma handle_global_options_total {P : Platform} (cmdcxt : cmd_context)
    (argv : list string) :
  result (snd (handle_global_options cmdcxt argv)) <> Aborts.
Proof.
  unfold handle_global_options. destruct argv as [|prog args];
    [discriminate|].
  apply handle_global_options_loop_total; cbn [List.length]; lia.
Qed.

(** [getopt_long] never moves [optind] beyond [argc]. *)
Lemma getopt_long_optind_le (argv : list string) (optind : nat) (c : Z)
    (optarg : option string) (optind' : nat) :
  (optind <= List.length argv)%nat ->
  getopt_long argv long_options optind = (c, optarg, optind') ->
  (optind' <= List.length argv)%nat.
Proof.
  intros Hle. unfold getopt_long.
  destruct (nth_error argv optind) as [a|] eqn:Ha;
    [|intros [= _ _ <-]; exact Hle].
  assert (Hlt : (optind < List.length argv)%nat)
    by (apply nth_error_Some; congruence).
  destruct (String.eqb a "--"); [intros [= _ _ <-]; lia|].
  destruct (NONOPTION_P a); [intros [= _ _ <-]; lia|].
  destruct a as [|a0 [|a1 nextchar]]; try (intros [= _ _ <-]; lia).
  destruct (Ascii.eqb_spec a1 "-"%char) as [->|Hdash].
  - cbv beta iota.
    destruct (split_nameend nextchar) as [n value].
    assert (Hnext : nth_error argv (S optind) <> None ->
                    (S optind < List.length argv)%nat)
      by apply nth_error_Some.
    destruct (find_long_option long_options n) as [p|];
      [|intros [= _ _ <-]; lia].
    destruct value as [arg|].
    + destruct (has_arg p =? no_argument); intros [= _ _ <-]; lia.
    + destruct (has_arg p =? required_argument);
        [|intros [= _ _ <-]; lia].
      destruct (nth_error argv (S optind)) as [arg'|];
        intros [= _ _ <-]; [|lia].
      assert (Some arg' <> None) as Hs by discriminate.
      specialize (Hnext Hs). lia.
  - destruct a1 as [[] [] [] [] [] [] [] []];
      try (destruct nextchar; intros [= _ _ <-]; lia).
    now elim Hdash.
Qed.

Lemma handle_global_options_loop_shift {P : Platform} (fuel : nat) :
  forall (cmdcxt : cmd_context) (argv : list string) (optind shift : nat),
  (optind <= List.length argv)%nat ->
  result (snd (handle_global_options_loop fuel cmdcxt argv optind))
  = Returns shift ->
  (shift <= List.length argv)%nat.
Proof.
  induction fuel as [|fuel IH]; intros cmdcxt argv optind shift Hle;
    [discriminate|].
  cbn [handle_global_options_loop].
  destruct (getopt_long argv long_options optind) as [[c optarg] optind']
    eqn:Hg.
  pose proof (getopt_long_optind_le argv optind c optarg optind' Hle Hg)
    as Hle'.
  destruct (c <? 0); [intros [= <-]; exact Hle'|].
  destruct ((c =? OPT_HELP) || (c =? OPT_VERSION) || (c =? OPT_FULL));
    [now apply IH|].
  destruct (c =? OPT_FORMAT); [|discriminate].
  destruct optarg as [format|]; [|discriminate].
  destruct (handle_output_format cmdcxt format) as [c' [tr [[]|status|]]];
    try discriminate.
  cbn [bind_cxt].
  specialize (IH c' argv optind' shift Hle').
  destruct (handle_global_options_loop fuel c' argv optind') as [c'' [tr' o]].
  exact IH.
Qed.

(** The shift that [handle_global_options] returns is an index into the
    vector or its length: [main] never hands [handle_special_globals] a
    shift beyond [argc]. *)
Lemma handle_global_options_shift_le {P : Platform} (cmdcxt : cmd_context)
    (argv : list string) (shift : nat) :
  result (snd (handle_global_options cmdcxt argv)) = Returns shift ->
  (shift <= List.length argv)%nat.
Proof.
  unfold handle_global_options. destruct argv as [|prog args].
  - intros [= <-]. apply le_n.
  - apply handle_global_options_loop_shift. cbn [List.length]. lia.
Qed.

(* ================================================================== *)
(** ** The output mode stays an enumerator *)

Lemma handle_output_format_loop_range (format : string)
    (outputs : list string) (i0 i : Z) :
  handle_output_format_loop format outputs i0 = Some i ->
  i0 <= i < i0 + Z.of_nat (List.length outputs).
Proof.
  revert i0. induction outputs as [|o outputs IH]; intros i0; [discriminate|].
  cbn [handle_output_format_loop List.length].
  destruct (strcasecmp format o =? 0).
  - intros [= <-]. lia.
  - intros H. apply IH in H. lia.
Qed.

(** Whatever [handle_output_format] stores in a context that it returns
    is below [CMD_OUTPUT_MAX]: the hypothesis of C8 holds for every
    context that [handle_global_options] hands on, as it does for the
    initial one once [cmd_outputs] has an entry. *)
Lemma handle_output_format_in_range {P : Platform} (cmdcxt : cmd_context)
    (format : string) :
  result (snd (handle_output_format cmdcxt format)) = Returns tt ->
  mode_in_range (fst (handle_output_format cmdcxt format)).
Proof.
  unfold handle_output_format, mode_in_range, CMD_OUTPUT_MAX.
  destruct (handle_output_format_loop format cmd_outputs 0) as [i|] eqn:Hi.
  - intros _. apply handle_output_format_loop_range in Hi. cbn. lia.
  - destruct (print_output_formats_writes stderr) as (tr & -> & _).
    discriminate.
Qed.

(* ================================================================== *)
(** ** More on the token matcher *)

(** [skip_prefix] gives the rest of [str] after [prefix] exactly when
    [str] starts with [prefix], and NULL for every other string. *)
Theorem skip_prefix_rest (str prefix : string) :
  (forall rest, skip_prefix str prefix = Some rest <-> str = prefix ++ rest)
  /\ (skip_prefix str prefix = None <-> forall rest, str <> prefix ++ rest).
Proof.
  split; [intros rest; apply skip_prefix_Some|].
  rewrite skip_prefix_None. split.
  - intros Hp rest Heq.
    assert (String.prefix prefix str = true)
      by (apply prefix_append; now exists rest).
    congruence.
  - intros Hno. destruct (String.prefix prefix str) eqn:Hp; [|reflexivity].
    apply prefix_append in Hp as [rest Hr]. now elim (Hno rest).
Qed.

(** What the scan of [parse_one_token] can end with, for candidates
    recorded so far that are commands of [all] whose names start with the
    token: a return at a command of the list with exactly the token's
    name, or the end with candidates of the same kind. *)
Lemma parse_one_token_loop_sound (arg : string) (all : list cmd_struct)
    (cmds : list cmd_struct) :
  forall ab am : option cmd_struct,
  incl cmds all ->
  (forall c, ab = Some c -> In c all /\ String.prefix arg (token c) = true) ->
  match parse_one_token_loop arg cmds ab am with
  | Scan_return c => In c all /\ token c = arg
  | Scan_end ab' _ =>
    forall c, ab' = Some c -> In c all /\ String.prefix arg (token c) = true
  end.
Proof.
  induction cmds as [|c cmds IH]; intros ab am Hincl Hab; [exact Hab|].
  assert (Hc : In c all) by (apply Hincl; now left).
  assert (Hincl' : incl cmds all) by (intros x Hx; apply Hincl; now right).
  destruct (string_dec (token c) arg) as [Heq|Hne].
  - rewrite parse_one_token_loop_exact by exact Heq. now split.
  - rewrite parse_one_token_loop_other by exact Hne.
    destruct (String.prefix arg (token c)) eqn:Hp.
    + apply IH; [exact Hincl'|]. intros x [= <-]. now split.
    + now apply IH.
Qed.

Lemma parse_one_token_result (arg : string) (grp : cmd_group)
    (cmd_ret : option cmd_struct) :
  (exists cmd, parse_one_token arg grp cmd_ret = (0, Some cmd)
               /\ In cmd (commands grp)
               /\ String.prefix arg (token cmd) = true)
  \/ parse_one_token arg grp cmd_ret = (-1, cmd_ret)
  \/ parse_one_token arg grp cmd_ret = (-2, cmd_ret).
Proof.
  unfold parse_one_token.
  pose proof (parse_one_token_loop_sound arg (commands grp) (commands grp)
                None None (incl_refl _)) as Hs.
  destruct (parse_one_token_loop arg (commands grp) None None)
    as [c|ab am].
  - left. exists c. destruct Hs as [Hin Heq]; [discriminate|]. subst arg.
    repeat split; [exact Hin | apply prefix_refl].
  - destruct am as [a|]; [now right; right|].
    destruct ab as [c|]; [|now right; left].
    left. exists c. destruct (Hs ltac:(discriminate) c eq_refl) as [Hin Hp].
    now repeat split.
Qed.

(** [parse_one_token] returns 0, -1 or -2 and nothing else. With 0 the
    command it writes to [*cmd_ret] is a command of the group whose name
    starts with the token; with -1 or -2 it leaves [*cmd_ret] as it
    was. *)
Theorem parse_one_token_sound (arg : string) (grp : cmd_group)
    (cmd_ret : option cmd_struct) :
  (fst (parse_one_token arg grp cmd_ret) = 0
   /\ exists cmd, snd (parse_one_token arg grp cmd_ret) = Some cmd
                  /\ In cmd (commands grp)
                  /\ String.prefix arg (token cmd) = true)
  \/ ((fst (parse_one_token arg grp cmd_ret) = -1
       \/ fst (parse_one_token arg grp cmd_ret) = -2)
      /\ snd (parse_one_token arg grp cmd_ret) = cmd_ret).
Proof.
  destruct (parse_one_token_result arg grp cmd_ret)
    as [(cmd & -> & Hin & Hp)|[ -> | -> ]]; cbn [fst snd]; eauto 6.
Qed.

(** Names need not be unique for an exact match: the token resolves to
    the first command of the group with exactly that name, whatever
    stands after it and whatever the commands before it abbreviate. *)
Theorem parse_one_token_first_exact (grp : cmd_group)
    (before after : list cmd_struct) (cmd : cmd_struct)
    (cmd_ret : option cmd_struct) :
  commands grp = (before ++ cmd :: after)%list ->
  (forall c, In c before -> token c <> token cmd) ->
  parse_one_token (token cmd) grp cmd_ret = (0, Some cmd).
Proof.
  intros Hcmds Hbefore. unfold parse_one_token. rewrite Hcmds. clear Hcmds.
  assert (Hloop : forall ab am,
             parse_one_token_loop (token cmd) (before ++ cmd :: after) ab am
             = Scan_return cmd).
  { induction before as [|c before IH]; intros ab am.
    - now apply parse_one_token_loop_exact.
    - assert (Hrest : forall x, In x before -> token x <> token cmd)
        by (intros x Hx; apply Hbefore; now right).
      cbn [app]. rewrite parse_one_token_loop_other
        by (apply Hbefore; now left).
      destruct (String.prefix _ _); now apply IH. }
  now rewrite Hloop.
Qed.

Lemma parse_one_token_first_exact_witness :
  parse_one_token "check" twin_group None = (0, Some (sample_leaf "check" 1)).
Proof.
  apply (parse_one_token_first_exact twin_group [sample_leaf "send" 1]
           [sample_leaf "check" 3] (sample_leaf "check" 1) None).
  - reflexivity.
  - simpl. intros c [<-|[]]. discriminate.
Defined.

(** [parse_command_token] returns a command of the group whose name
    starts with the token, or ends the process with status 1 after the
    report of an unknown or of an ambiguous token: the pointer it returns
    is never NULL. *)
Theorem parse_command_token_cases (arg : string) (grp : cmd_group) :
  (exists cmd, parse_command_token arg grp = ret cmd
               /\ In cmd (commands grp)
               /\ String.prefix arg (token cmd) = true)
  \/ parse_command_token arg grp = ([Help_unknown_token arg grp], Exits 1)
  \/ parse_command_token arg grp = ([Help_ambiguous_token arg grp], Exits 1).
Proof.
  unfold parse_command_token.
  destruct (parse_one_token_result arg grp None)
    as [(cmd & -> & Hin & Hp)|[ -> | -> ]].
  - left. exists cmd. now repeat split.
  - right. left. reflexivity.
  - right. right. reflexivity.
Qed.

(* ================================================================== *)
(** ** More on the global options *)

(** After recognised options with known formats the loop of
    [handle_global_options] stands at the argument that follows them,
    with at least one turn left. *)
Lemma handle_global_options_after_options {P : Platform}
    (cmdcxt : cmd_context) (prog : string) (opts : list global_option)
    (rest : list string) :
  Forall format_known opts ->
  exists k,
    handle_global_options cmdcxt (prog :: options_args opts ++ rest)
    = handle_global_options_loop (S k) (fold_left after_option opts cmdcxt)
        ((prog :: options_args opts) ++ rest)
        (List.length (prog :: options_args opts)).
Proof.
  intros Hknown. unfold handle_global_options.
  destruct (handle_global_options_fuel prog opts rest) as [k ->]. exists k.
  pose proof (handle_global_options_loop_options opts (S k) cmdcxt [prog]
                rest Hknown) as Hskip.
  cbn [List.length] in Hskip. exact Hskip.
Qed.

Lemma getopt_long_double_dash (pre post : list string) :
  getopt_long (pre ++ "--" :: post) long_options (List.length pre)
  = (-1, None, S (List.length pre)).
Proof. unfold getopt_long. now rewrite nth_error_middle. Qed.

Lemma getopt_long_missing_value (pre : list string) :
  rejected_at (pre ++ ["--format"]) (List.length pre).
Proof.
  unfold rejected_at, getopt_long. rewrite nth_error_middle.
  assert (nth_error (pre ++ ["--format"]) (S (List.length pre)) = None) as Hn
    by (apply nth_error_None; rewrite length_app; cbn [List.length]; lia).
  rewrite Hn. reflexivity.
Qed.

Lemma getopt_long_short_option (pre : list string) (c : ascii)
    (post : list string) :
  c <> "-"%char ->
  rejected_at (pre ++ String "-" (String c EmptyString) :: post)
              (List.length pre).
Proof.
  intros Hc. unfold rejected_at, getopt_long. rewrite nth_error_middle.
  destruct c as [[] [] [] [] [] [] [] []]; try reflexivity. now elim Hc.
Qed.

Lemma getopt_long_short_cluster (pre : list string) (c d : ascii)
    (more : string) (post : list string) :
  c <> "-"%char ->
  getopt_long (pre ++ String "-" (String c (String d more)) :: post)
    long_options (List.length pre)
  = (QUESTION_MARK, None, List.length pre).
Proof.
  intros Hc. unfold getopt_long. rewrite nth_error_middle.
  destruct c as [[] [] [] [] [] [] [] []]; try reflexivity. now elim Hc.
Qed.

Lemma last_cons_default (x : string) (l : list string) (a b : string) :
  last (x :: l) a = last (x :: l) b.
Proof.
  revert x. induction l as [|y l IH]; intros x; [reflexivity|].
  change (last (y :: l) a = last (y :: l) b). apply IH.
Qed.

Lemma nth_length_last (a : string) (l r : list string) (d : string) :
  nth (List.length l) ((a :: l) ++ r) d = last l a.
Proof.
  revert a. induction l as [|x l IH]; intros a; [reflexivity|].
  change (nth (List.length l) ((x :: l) ++ r) d = last (x :: l) a).
  rewrite IH. destruct l as [|y l]; [reflexivity|].
  apply (last_cons_default y l x a).
Qed.

(** The argument "--" ends the global options and is stepped over: the
    shift is the index after it, the options before it have set the
    context, and nothing after it is read as an option. *)
Theorem handle_global_options_double_dash {P : Platform}
    (cmdcxt : cmd_context) (prog : string) (opts : list global_option)
    (rest : list string) :
  Forall format_known opts ->
  handle_global_options cmdcxt (prog :: options_args opts ++ "--" :: rest)
  = (fold_left after_option opts cmdcxt,
     ret (S (S (List.length (options_args opts))))).
Proof.
  intros Hknown.
  destruct (handle_global_options_after_options cmdcxt prog opts
              ("--" :: rest) Hknown) as [k ->].
  cbn [handle_global_options_loop]. now rewrite getopt_long_double_dash.
Qed.

Lemma handle_global_options_double_dash_witness :
  @handle_global_options sample_platform initial_context
    ["btrfs"; "--format"; "json"; "--"; "--help"]
  = ({| output_mode := 1 |}, ret 4%nat).
Proof.
  apply (@handle_global_options_double_dash sample_platform initial_context
           "btrfs" [Opt_format "json"] ["--help"]).
  repeat constructor. cbn. discriminate.
Defined.

(** A "--format" that is the last argument has no value: the process
    exits with status 129 and the diagnostic of an unknown global option
    that names "--format"; [handle_output_format] is not called. *)
Theorem handle_global_options_format_without_value {P : Platform}
    (cmdcxt : cmd_context) (prog : string) (opts : list global_option) :
  Forall format_known opts ->
  handle_global_options cmdcxt (prog :: options_args opts ++ ["--format"])
  = (fold_left after_option opts cmdcxt,
     ([Write stderr ("Unknown global option: --format" ++ LF)], Exits 129)).
Proof.
  intros Hknown. apply handle_global_options_rejected; [exact Hknown|].
  apply (getopt_long_missing_value (prog :: options_args opts)).
Qed.

Lemma handle_global_options_format_without_value_witness :
  @handle_global_options sample_platform initial_context
    ["btrfs"; "--full"; "--format"]
  = (initial_context,
     ([Write stderr ("Unknown global option: --format" ++ LF)], Exits 129)).
Proof.
  apply (@handle_global_options_format_without_value sample_platform
           initial_context "btrfs" [Opt_full]).
  repeat constructor.
Defined.

(** There are no short options: an argument of a dash and one other
    character, "-h" as any other, ends the process with status 129 and a
    diagnostic that names it. *)
Theorem handle_global_options_short_option {P : Platform}
    (cmdcxt : cmd_context) (prog : string) (opts : list global_option)
    (c : ascii) (rest : list string) :
  Forall format_known opts ->
  c <> "-"%char ->
  handle_global_options cmdcxt
    (prog :: options_args opts ++ String "-" (String c EmptyString) :: rest)
  = (fold_left after_option opts cmdcxt,
     ([Write stderr
         ("Unknown global option: " ++ String "-" (String c EmptyString)
          ++ LF)],
      Exits 129)).
Proof.
  intros Hknown Hc. apply handle_global_options_rejected; [exact Hknown|].
  apply (getopt_long_short_option (prog :: options_args opts) c rest Hc).
Qed.

Lemma handle_global_options_short_option_witness :
  @handle_global_options sample_platform initial_context
    ["btrfs"; "-h"; "quota"]
  = (initial_context,
     ([Write stderr ("Unknown global option: -h" ++ LF)], Exits 129)).
Proof.
  apply (@handle_global_options_short_option sample_platform
           initial_context "btrfs" [] "h"%char ["quota"]).
  - constructor.
  - discriminate.
Defined.

(** An argument of a dash and two or more other characters, the first
    of them not a dash, also ends the process with status 129, but
    [getopt_long] has not stepped over it and [argv[optind - 1]] is the
    argument before it: the diagnostic names the last argument of the
    options before it, or the program name when there is none. *)
Theorem handle_global_options_short_cluster {P : Platform}
    (cmdcxt : cmd_context) (prog : string) (opts : list global_option)
    (c d : ascii) (more : string) (rest : list string) :
  Forall format_known opts ->
  c <> "-"%char ->
  handle_global_options cmdcxt
    (prog :: options_args opts
       ++ String "-" (String c (String d more)) :: rest)
  = (fold_left after_option opts cmdcxt,
     ([Write stderr
         ("Unknown global option: " ++ last (options_args opts) prog ++ LF)],
      Exits 129)).
Proof.
  intros Hknown Hc.
  destruct (handle_global_options_after_options cmdcxt prog opts
              (String "-" (String c (String d more)) :: rest) Hknown)
    as [k ->].
  cbn [handle_global_options_loop].
  rewrite (getopt_long_short_cluster _ c d more rest Hc).
  unfold QUESTION_MARK, OPT_HELP, OPT_VERSION, OPT_FULL, OPT_FORMAT.
  cbn [Z.ltb Z.eqb Z.compare Pos.compare Pos.compare_cont Pos.eqb orb
       List.length].
  rewrite Nat.sub_1_r. cbn [Nat.pred].
  now rewrite nth_length_last.
Qed.

Lemma handle_global_options_short_cluster_witness :
  @handle_global_options sample_platform initial_context
    ["btrfs"; "--format"; "json"; "-xy"; "quota"]
  = ({| output_mode := 1 |},
     ([Write stderr ("Unknown global option: json" ++ LF)], Exits 129)).
Proof.
  apply (@handle_global_options_short_cluster sample_platform
           initial_context "btrfs" [Opt_format "json"] "x"%char "y"%char
           EmptyString ["quota"]).
  - repeat constructor. cbn. discriminate.
  - discriminate.
Defined.

(** [getopt_long] never moves [optind] back. *)
Lemma getopt_long_optind_ge (argv : list string) (optind : nat) (c : Z)
    (optarg : option string) (optind' : nat) :
  getopt_long argv long_options optind = (c, optarg, optind') ->
  (optind <= optind')%nat.
Proof.
  unfold getopt_long.
  destruct (nth_error argv optind) as [a|]; [|intros [= _ _ <-]; lia].
  destruct (String.eqb a "--"); [intros [= _ _ <-]; lia|].
  destruct (NONOPTION_P a); [intros [= _ _ <-]; lia|].
  destruct a as [|a0 [|a1 nextchar]]; try (intros [= _ _ <-]; lia).
  destruct (Ascii.eqb_spec a1 "-"%char) as [->|Hdash].
  - cbv beta iota.
    destruct (split_nameend nextchar) as [n value].
    destruct (find_long_option long_options n) as [p|];
      [|intros [= _ _ <-]; lia].
    destruct value as [arg|].
    + destruct (has_arg p =? no_argument); intros [= _ _ <-]; lia.
    + destruct (has_arg p =? required_argument);
        [|intros [= _ _ <-]; lia].
      destruct (nth_error argv (S optind)) as [arg'|];
        intros [= _ _ <-]; lia.
  - destruct a1 as [[] [] [] [] [] [] [] []];
      try (destruct nextchar; intros [= _ _ <-]; lia).
    now elim Hdash.
Qed.

Lemma handle_global_options_loop_outcomes {P : Platform} (fuel : nat) :
  forall (cmdcxt : cmd_context) (argv : list string) (optind : nat),
  (optind <= List.length argv)%nat ->
  result (snd (handle_global_options_loop fuel cmdcxt argv optind)) = Aborts
  \/ result (snd (handle_global_options_loop fuel cmdcxt argv optind))
     = Exits 1
  \/ result (snd (handle_global_options_loop fuel cmdcxt argv optind))
     = Exits 129
  \/ exists shift,
       result (snd (handle_global_options_loop fuel cmdcxt argv optind))
       = Returns shift
       /\ (optind <= shift <= List.length argv)%nat.
Proof.
  induction fuel as [|fuel IH]; intros cmdcxt argv optind Hle; [now left|].
  cbn [handle_global_options_loop].
  destruct (getopt_long argv long_options optind) as [[c optarg] optind']
    eqn:Hg.
  pose proof (getopt_long_optind_le argv optind c optarg optind' Hle Hg)
    as Hle'.
  pose proof (getopt_long_optind_ge argv optind c optarg optind' Hg) as Hge.
  assert (Hrec : forall c',
    result (snd (handle_global_options_loop fuel c' argv optind')) = Aborts
    \/ result (snd (handle_global_options_loop fuel c' argv optind'))
       = Exits 1
    \/ result (snd (handle_global_options_loop fuel c' argv optind'))
       = Exits 129
    \/ exists shift,
         result (snd (handle_global_options_loop fuel c' argv optind'))
         = Returns shift
         /\ (optind <= shift <= List.length argv)%nat).
  { intros c'. destruct (IH c' argv optind' Hle')
      as [H|[H|[H|(shift & H & Hs)]]]; auto.
    right; right; right. exists shift. split; [exact H | lia]. }
  destruct (c <? 0).
  { right; right; right. exists optind'. split; [reflexivity | lia]. }
  destruct ((c =? OPT_HELP) || (c =? OPT_VERSION) || (c =? OPT_FULL));
    [apply Hrec|].
  destruct (c =? OPT_FORMAT); [|right; right; left; reflexivity].
  destruct optarg as [format|]; [|now left].
  destruct (handle_output_format_ends cmdcxt format) as [Hret|Hexit].
  - destruct (handle_output_format cmdcxt format) as [c' m].
    cbn [snd] in Hret. subst m. cbn [bind_cxt ret].
    specialize (Hrec c').
    destruct (handle_global_options_loop fuel c' argv optind')
      as [c'' [tr o]].
    exact Hrec.
  - destruct (handle_output_format cmdcxt format) as [c' [tr o]].
    cbn [snd result] in Hexit. subst o. right; left. reflexivity.
Qed.

(** [handle_global_options] ends in one of three ways, for every context
    and argument vector: it returns a shift that is at most [argc], and
    at least 1 unless the vector is empty; or the process exits with
    status 1 (an unknown format); or it exits with status 129. *)
Theorem handle_global_options_outcomes {P : Platform}
    (cmdcxt : cmd_context) (argv : list string) :
  (exists shift,
      result (snd (handle_global_options cmdcxt argv)) = Returns shift
      /\ (shift <= List.length argv)%nat
      /\ (argv <> [] -> (1 <= shift)%nat))
  \/ result (snd (handle_global_options cmdcxt argv)) = Exits 1
  \/ result (snd (handle_global_options cmdcxt argv)) = Exits 129.
Proof.
  pose proof (handle_global_options_total cmdcxt argv) as Htotal.
  unfold handle_global_options in *. destruct argv as [|prog args].
  - left. exists O. repeat split; [apply le_n | congruence].
  - destruct (handle_global_options_loop_outcomes
                (List.length (prog :: args)) cmdcxt (prog :: args) 1)
      as [H|[H|[H|(shift & H & Hs)]]]; auto.
    + cbn [List.length]. lia.
    + contradiction.
    + left. exists shift. repeat split; [exact H | lia | lia].
Qed.

(* ================================================================== *)
(** ** The output mode stays an enumerator: the global options *)

Lemma handle_global_options_loop_mode {P : Platform} (fuel : nat) :
  forall (cmdcxt : cmd_context) (argv : list string) (optind shift : nat),
  mode_in_range cmdcxt ->
  result (snd (handle_global_options_loop fuel cmdcxt argv optind))
  = Returns shift ->
  mode_in_range (fst (handle_global_options_loop fuel cmdcxt argv optind)).
Proof.
  induction fuel as [|fuel IH]; intros cmdcxt argv optind shift Hr;
    [discriminate|].
  cbn [handle_global_options_loop].
  destruct (getopt_long argv long_options optind) as [[c optarg] optind'].
  destruct (c <? 0); [intros _; exact Hr|].
  destruct ((c =? OPT_HELP) || (c =? OPT_VERSION) || (c =? OPT_FULL));
    [now apply IH|].
  destruct (c =? OPT_FORMAT); [|discriminate].
  destruct optarg as [format|]; [|discriminate].
  pose proof (handle_output_format_in_range cmdcxt format) as Hin.
  destruct (handle_output_format cmdcxt format) as [c' [tr [[]|status|]]];
    try discriminate.
  cbn [bind_cxt]. specialize (IH c' argv optind' shift (Hin eq_refl)).
  destruct (handle_global_options_loop fuel c' argv optind')
    as [c'' [tr' o]].
  exact IH.
Qed.

Lemma handle_help_options_next_level_no_abort {P : Platform}
    (cmd : cmd_struct) (cmdcxt : cmd_context) (argv : list string) :
  mode_in_range cmdcxt ->
  result (handle_help_options_next_level cmd cmdcxt argv) <> Aborts.
Proof.
  intros [Hlo Hhi]. apply Z.leb_le in Hlo. apply Z.ltb_lt in Hhi.
  unfold handle_help_options_next_level.
  destruct argv as [|argv0 [|argv1 rest]]; try discriminate.
  rewrite Hlo, Hhi.
  destruct (is_NULL (next cmd) && negb (cmd_provides_output_format cmd cmdcxt));
    cbn; destruct (strcmp argv1 "--help" =? 0); cbn;
    destruct (next cmd); discriminate.
Qed.

(** When the output mode of the context is an enumerator below
    [CMD_OUTPUT_MAX] before [handle_global_options], it is one in the
    context the function leaves when it returns, and neither [ASSERT] of
    [handle_help_options_next_level] fails on that context, for any
    command and arguments. *)
Theorem handle_global_options_mode_in_range {P : Platform}
    (cmdcxt : cmd_context) (argv : list string) (shift : nat) :
  mode_in_range cmdcxt ->
  result (snd (handle_global_options cmdcxt argv)) = Returns shift ->
  mode_in_range (fst (handle_global_options cmdcxt argv))
  /\ forall cmd args,
       result (handle_help_options_next_level cmd
                 (fst (handle_global_options cmdcxt argv)) args)
       <> Aborts.
Proof.
  intros Hr Hret.
  assert (Hm : mode_in_range (fst (handle_global_options cmdcxt argv))).
  { unfold handle_global_options in *. destruct argv as [|prog args];
      [exact Hr|]. now apply (handle_global_options_loop_mode _ _ _ _ shift). }
  split; [exact Hm|]. intros cmd args.
  now apply handle_help_options_next_level_no_abort.
Qed.

Lemma handle_global_options_mode_in_range_witness :
  @mode_in_range sample_platform
    (fst (@handle_global_options sample_platform initial_context
            ["btrfs"; "--format"; "JSON"; "quota"; "show"]))
  /\ forall cmd args,
       result (@handle_help_options_next_level sample_platform cmd
                 (fst (@handle_global_options sample_platform initial_context
                         ["btrfs"; "--format"; "JSON"; "quota"; "show"]))
                 args)
       <> Aborts.
Proof.
  apply (@handle_global_options_mode_in_range sample_platform initial_context
           ["btrfs"; "--format"; "JSON"; "quota"; "show"] 3).
  - cbv. split; [discriminate | reflexivity].
  - reflexivity.
Defined.

(* ================================================================== *)
(** ** More on the special globals and on the format list *)

Lemma handle_special_globals_plain {P : Platform} (cmdcxt : cmd_context)
    (shift : nat) (argv : list string) :
  (shift <= List.length argv)%nat ->
  existsb (String.eqb "--help") (firstn shift argv) = false ->
  existsb (String.eqb "--version") (firstn shift argv) = false ->
  handle_special_globals cmdcxt shift argv = ret tt.
Proof.
  intros Hshift Hh Hv. unfold handle_special_globals.
  assert ((List.length argv <? shift)%nat = false) as ->
    by (apply Nat.ltb_ge; exact Hshift).
  rewrite handle_special_globals_flags_spec, !orb_false_l, Hh.
  now rewrite handle_special_globals_version_spec, Hv.
Qed.

Lemma existsb_eqb_not_In (s : string) (l : list string) :
  ~ In s l -> existsb (String.eqb s) l = false.
Proof.
  intros Hn. destruct (existsb (String.eqb s) l) eqn:He; [|reflexivity].
  apply existsb_eqb_In in He. contradiction.
Qed.

(** With neither "--help" nor "--version" among the first [shift]
    arguments, [handle_special_globals] returns and does nothing: a
    "--full" alone has no effect, and what stands at index [shift] or
    later is not looked at. *)
Theorem handle_special_globals_no_special {P : Platform}
    (cmdcxt : cmd_context) (shift : nat) (argv : list string) :
  (shift <= List.length argv)%nat ->
  ~ In "--help" (firstn shift argv) ->
  ~ In "--version" (firstn shift argv) ->
  handle_special_globals cmdcxt shift argv = ret tt.
Proof.
  intros Hshift Hh Hv.
  apply handle_special_globals_plain; auto using existsb_eqb_not_In.
Qed.

Lemma handle_special_globals_no_special_witness :
  @handle_special_globals sample_platform initial_context 2
    ["btrfs"; "--full"; "quota"; "--help"]
  = ret tt.
Proof.
  apply (@handle_special_globals_no_special sample_platform initial_context 2
           ["btrfs"; "--full"; "quota"; "--help"]).
  - simpl. lia.
  - simpl. intuition discriminate.
  - simpl. intuition discriminate.
Defined.

(** What [print_output_formats] prints for a table of names that starts
    with [first]: the heading, the first name after a blank, every other
    name after a comma and a blank, each name between double quotes, the
    end of the line, and the note on extended formats exactly when the
    table has more than one name. All of it goes to [outf], and the
    function returns. *)
Theorem print_output_formats_text {P : Platform} (outf : stream)
    (first : string) (others : list string) :
  cmd_outputs = first :: others ->
  print_output_formats outf
  = ((Write outf "Options for --format are:"
      :: Write outf (" " ++ DQUOTE ++ first ++ DQUOTE)
      :: map (fun o => Write outf (", " ++ DQUOTE ++ o ++ DQUOTE)) others
      ++ Write outf LF
      :: match others with
         | [] => []
         | _ :: _ =>
           [Write outf
              ("Extended output formats may not be available for all commands."
               ++ LF)]
         end)%list,
     Returns tt).
Proof.
  intros Hout. unfold print_output_formats, CMD_OUTPUT_MAX, CMD_OUTPUT_TEXT.
  rewrite Hout. cbn [print_output_formats_loop List.length].
  rewrite (print_output_formats_loop_later outf others (0 + 1)) by lia.
  destruct others as [|o others]; [reflexivity|].
  cbn [List.length].
  assert ((0 + 1 =? Z.of_nat (S (S (List.length others)))) = false) as Hne
    by (apply Z.eqb_neq; lia).
  rewrite Hne. cbn. rewrite <- ?app_assoc. reflexivity.
Qed.

Lemma print_output_formats_text_witness :
  @print_output_formats sample_platform stderr
  = ([Write stderr "Options for --format are:";
      Write stderr (" " ++ DQUOTE ++ "text" ++ DQUOTE);
      Write stderr (", " ++ DQUOTE ++ "json" ++ DQUOTE);
      Write stderr LF;
      Write stderr
        ("Extended output formats may not be available for all commands."
         ++ LF)],
     Returns tt).
Proof.
  apply (@print_output_formats_text sample_platform stderr "text" ["json"]).
  reflexivity.
Defined.

(* ================================================================== *)
(** ** [main] and [handle_command_group]: how the parts compose *)

Lemma bind_ret_l {A B : Type} (a : A) (k : A -> proc B) :
  bind (ret a) k = k a.
Proof. unfold bind, ret. now destruct (k a). Qed.

Lemma firstn_length_app (l r : list string) :
  firstn (List.length l) (l ++ r) = l.
Proof. induction l as [|x l IH]; [reflexivity | cbn; now rewrite IH]. Qed.

Lemma skipn_length_app (l r : list string) :
  skipn (List.length l) (l ++ r) = r.
Proof. induction l as [|x l IH]; [reflexivity | exact IH]. Qed.

Lemma parse_one_token_minus_1 (arg : string) (grp : cmd_group)
    (cmd_ret : option cmd_struct) :
  fst (parse_one_token arg grp cmd_ret) = -1 ->
  parse_one_token arg grp cmd_ret = (-1, cmd_ret).
Proof.
  destruct (parse_one_token_result arg grp cmd_ret)
    as [(cmd & -> & _)|[ -> | -> ]]; [discriminate | trivial | discriminate].
Qed.

Lemma parse_one_token_minus_2 (arg : string) (grp : cmd_group)
    (cmd_ret : option cmd_struct) :
  fst (parse_one_token arg grp cmd_ret) = -2 ->
  parse_one_token arg grp cmd_ret = (-2, cmd_ret).
Proof.
  destruct (parse_one_token_result arg grp cmd_ret)
    as [(cmd & -> & _)|[ -> | -> ]]; [discriminate | discriminate | trivial].
Qed.

(** [handle_command_group] on a vector that starts with the name of the
    group: with nothing after the name it prints the usage of the group
    and exits with status 1; a token that is not found or is ambiguous
    ends the process with status 1 after the report alone, no handler is
    entered; a token that resolves, and that
    [handle_help_options_next_level] lets pass, runs the handler of its
    command on the context and on the vector that starts at the token,
    after [fixup_argv0]. *)
Theorem handle_command_group_cases {P : Platform} (grp : cmd_group)
    (cmdcxt : cmd_context) (name arg : string) (rest : list string) :
  handle_command_group grp cmdcxt [] 
  = ([Usage_command_group grp false false], Exits 1)
  /\ handle_command_group grp cmdcxt [name]
     = ([Usage_command_group grp false false], Exits 1)
  /\ (fst (parse_one_token arg grp None) = -1 ->
      handle_command_group grp cmdcxt (name :: arg :: rest)
      = ([Help_unknown_token arg grp], Exits 1))
  /\ (fst (parse_one_token arg grp None) = -2 ->
      handle_command_group grp cmdcxt (name :: arg :: rest)
      = ([Help_ambiguous_token arg grp], Exits 1))
  /\ (forall cmd,
         parse_one_token arg grp None = (0, Some cmd) ->
         handle_help_options_next_level cmd cmdcxt (arg :: rest) = ret tt ->
         handle_command_group grp cmdcxt (name :: arg :: rest)
         = cmd_execute cmd cmdcxt (fixup_argv0 (arg :: rest) (token cmd))).
Proof.
  repeat split; try reflexivity.
  - intros H. apply parse_one_token_minus_1 in H.
    unfold handle_command_group, parse_command_token. cbn [tl].
    now rewrite H.
  - intros H. apply parse_one_token_minus_2 in H.
    unfold handle_command_group, parse_command_token. cbn [tl].
    now rewrite H.
  - intros cmd Hparse Hpass.
    unfold handle_command_group, parse_command_token. cbn [tl].
    rewrite Hparse. cbn [Z.eqb]. rewrite bind_ret_l. cbv beta.
    rewrite Hpass. now rewrite bind_ret_l.
Qed.

Lemma strrchr_slash_btrfsck (dir : string) :
  strrchr (dir ++ "/btrfsck") "/"%char = Some "/btrfsck".
Proof.
  induction dir as [|a dir IH]; [reflexivity|].
  cbn [String.append strrchr]. now rewrite IH.
Qed.

Lemma main_btrfsck_dispatch {P : Platform} (prog : string)
    (args : list string) :
  prog = "btrfsck" \/ (exists dir, prog = dir ++ "/btrfsck") ->
  main (prog :: args)
  = (emit Btrfs_config_init ;;
     main_dispatch initial_context ("check" :: args)).
Proof.
  intros [->|[dir ->]]; [reflexivity|].
  unfold main. now rewrite strrchr_slash_btrfsck.
Qed.

(** With recognised global options before the first argument that is
    not an option, and neither "--help" nor "--version" among the program
    name and those options, [main] goes on to resolve that argument: the
    options are dropped from the vector and have set the context. *)
Lemma main_after_globals {P : Platform} (prog : string)
    (opts : list global_option) (arg : string) (rest : list string) :
  strcmp (bname_of prog) "btrfsck" <> 0 ->
  Forall format_known opts ->
  ~ In "--help" (prog :: options_args opts) ->
  ~ In "--version" (prog :: options_args opts) ->
  NONOPTION_P arg = true ->
  main (prog :: options_args opts ++ arg :: rest)
  = (emit Btrfs_config_init ;;
     main_dispatch (fold_left after_option opts initial_context)
       (arg :: rest)).
Proof.
  intros Hprog Hknown Hh Hv Harg. apply Z.eqb_neq in Hprog.
  unfold main. fold (bname_of prog). rewrite Hprog.
  fold initial_context.
  rewrite (handle_global_options_options initial_context prog opts
             (arg :: rest) Hknown Harg).
  cbv beta iota. rewrite bind_ret_l. cbv beta.
  assert (Hfirst : firstn (S (List.length (options_args opts)))
                     (prog :: options_args opts ++ arg :: rest)
                   = prog :: options_args opts)
    by (cbn [firstn]; now rewrite firstn_length_app).
  rewrite handle_special_globals_plain.
  - rewrite bind_ret_l. cbv beta. cbn [skipn].
    rewrite skipn_length_app. reflexivity.
  - cbn [List.length]. rewrite length_app. lia.
  - rewrite Hfirst. now apply existsb_eqb_not_In.
  - rewrite Hfirst. now apply existsb_eqb_not_In.
Qed.

Lemma main_dispatch_runs {P : Platform} (cmdcxt : cmd_context)
    (arg : string) (rest : list string) (cmd : cmd_struct) :
  parse_one_token arg btrfs_cmd_group None = (0, Some cmd) ->
  handle_help_options_next_level cmd cmdcxt (arg :: rest) = ret tt ->
  main_dispatch cmdcxt (arg :: rest)
  = (emit Crc32c_optimization_init ;;
     ret_ <- cmd_execute cmd cmdcxt (fixup_argv0 (arg :: rest) (token cmd)) ;;
     emit Btrfs_close_all_devices ;;
     exit ret_).
Proof.
  intros Hparse Hpass. unfold main_dispatch, parse_command_token.
  rewrite Hparse. cbn [Z.eqb]. rewrite bind_ret_l. cbv beta.
  rewrite Hpass. now rewrite bind_ret_l.
Qed.

Lemma handle_help_options_next_level_text {P : Platform}
    (cmd : cmd_struct) (arg : string) (args : list string) :
  handle_help_options_next_level cmd initial_context (arg :: args)
  = match args with
    | [] => ret tt
    | argv1 :: _ =>
      if String.eqb argv1 "--help" then
        ([match next cmd with
          | Some grp => Help_command_group grp args
          | None => Usage_command cmd true false
          end],
         Exits 0)
      else ret tt
    end.
Proof.
  unfold handle_help_options_next_level.
  destruct args as [|argv1 rest]; [reflexivity|].
  rewrite strcmp_eqb. unfold cmd_provides_output_format, initial_context.
  cbn [output_mode CMD_OUTPUT_TEXT Z.eqb negb]. rewrite andb_false_r.
  cbn [bind ret]. destruct (String.eqb argv1 "--help"); [|reflexivity].
  now destruct (next cmd).
Qed.

(** Run as "btrfsck", or under any path that ends in "/btrfsck", [main]
    parses no global options. With "check" resolving to [cmd] in the top
    group it runs the handler of [cmd] on the default context and on the
    vector of "check" and every other argument (after [fixup_argv0]),
    between [crc32c_optimization_init] and [btrfs_close_all_devices], and
    exits with the status of the handler: a "--format", "--version" or
    unknown option among the arguments is left to the command, and
    neither [handle_output_format] nor an exit with status 129 can
    happen. The one argument [main] itself reacts to is a "--help" right
    after the program name: then the help of the command is rendered and
    the process exits with status 0, the handler not entered. *)
Theorem main_btrfsck_alias {P : Platform} (prog : string)
    (args : list string) (cmd : cmd_struct) :
  prog = "btrfsck" \/ (exists dir, prog = dir ++ "/btrfsck") ->
  parse_one_token "check" btrfs_cmd_group None = (0, Some cmd) ->
  (hd EmptyString args <> "--help" ->
   main (prog :: args)
   = (emit Btrfs_config_init ;;
      emit Crc32c_optimization_init ;;
      ret_ <- cmd_execute cmd initial_context
                (fixup_argv0 ("check" :: args) (token cmd)) ;;
      emit Btrfs_close_all_devices ;;
      exit ret_))
  /\ (forall more,
         args = "--help" :: more ->
         main (prog :: args)
         = ([Btrfs_config_init;
             match next cmd with
             | Some grp => Help_command_group grp ("--help" :: more)
             | None => Usage_command cmd true false
             end],
            Exits 0)).
Proof.
  intros Hprog Hparse. rewrite (main_btrfsck_dispatch prog args Hprog).
  split.
  - intros Hhd.
    rewrite (main_dispatch_runs initial_context "check" args cmd Hparse);
      [reflexivity|].
    rewrite handle_help_options_next_level_text.
    destruct args as [|argv1 rest]; [reflexivity|].
    cbn [hd] in Hhd. apply String.eqb_neq in Hhd. now rewrite Hhd.
  - intros more ->. unfold main_dispatch, parse_command_token.
    rewrite Hparse. cbn [Z.eqb]. rewrite bind_ret_l. cbv beta.
    rewrite handle_help_options_next_level_text. reflexivity.
Qed.

Lemma main_btrfsck_alias_witness :
  @main sample_platform ["/sbin/btrfsck"; "--format"; "bogus"; "/dev/sda"]
  = ([Btrfs_config_init; Crc32c_optimization_init;
      Enter_fn (sample_leaf "check" 1) initial_context
        ["check"; "--format"; "bogus"; "/dev/sda"];
      Btrfs_close_all_devices],
     Exits 0).
Proof.
  refine (proj1 (@main_btrfsck_alias sample_platform "/sbin/btrfsck"
                   ["--format"; "bogus"; "/dev/sda"] (sample_leaf "check" 1)
                   _ _) _).
  - right. exists "/sbin". reflexivity.
  - reflexivity.
  - discriminate.
Defined.

(** A first token that is not found, or that is ambiguous, in the top
    group ends [main] with status 1 after the report of the token: the
    checksum initialisation is not reached and no command is run. *)
Theorem main_unresolved_command {P : Platform} (prog : string)
    (opts : list global_option) (arg : string) (rest : list string) :
  strcmp (bname_of prog) "btrfsck" <> 0 ->
  Forall format_known opts ->
  ~ In "--help" (prog :: options_args opts) ->
  ~ In "--version" (prog :: options_args opts) ->
  NONOPTION_P arg = true ->
  (fst (parse_one_token arg btrfs_cmd_group None) = -1 ->
   main (prog :: options_args opts ++ arg :: rest)
   = ([Btrfs_config_init; Help_unknown_token arg btrfs_cmd_group], Exits 1))
  /\ (fst (parse_one_token arg btrfs_cmd_group None) = -2 ->
      main (prog :: options_args opts ++ arg :: rest)
      = ([Btrfs_config_init; Help_ambiguous_token arg btrfs_cmd_group],
         Exits 1)).
Proof.
  intros Hprog Hknown Hh Hv Harg.
  rewrite (main_after_globals prog opts arg rest Hprog Hknown Hh Hv Harg).
  unfold main_dispatch, parse_command_token. split; intros H.
  - apply parse_one_token_minus_1 in H. now rewrite H.
  - apply parse_one_token_minus_2 in H. now rewrite H.
Qed.

Lemma main_unresolved_command_witness :
  @main sample_platform ["btrfs"; "--full"; "re"; "start"]
  = ([Btrfs_config_init;
      Help_ambiguous_token "re" (@btrfs_cmd_group sample_platform)],
     Exits 1).
Proof.
  apply (@main_unresolved_command sample_platform "btrfs" [Opt_full] "re"
           ["start"]).
  - vm_compute. discriminate.
  - repeat constructor.
  - simpl. intuition discriminate.
  - simpl. intuition discriminate.
  - reflexivity.
  - reflexivity.
Defined.

(** A first token that resolves to a command, and that
    [handle_help_options_next_level] lets pass, makes [main] run the
    handler of that command on the context the global options have set
    and on the vector that starts at the token (after [fixup_argv0]),
    between [crc32c_optimization_init] and [btrfs_close_all_devices]; the
    status the handler returns is the exit status. *)
Theorem main_runs_command {P : Platform} (prog : string)
    (opts : list global_option) (arg : string) (rest : list string)
    (cmd : cmd_struct) :
  strcmp (bname_of prog) "btrfsck" <> 0 ->
  Forall format_known opts ->
  ~ In "--help" (prog :: options_args opts) ->
  ~ In "--version" (prog :: options_args opts) ->
  NONOPTION_P arg = true ->
  parse_one_token arg btrfs_cmd_group None = (0, Some cmd) ->
  handle_help_options_next_level cmd
    (fold_left after_option opts initial_context) (arg :: rest) = ret tt ->
  main (prog :: options_args opts ++ arg :: rest)
  = (emit Btrfs_config_init ;;
     emit Crc32c_optimization_init ;;
     ret_ <- cmd_execute cmd (fold_left after_option opts initial_context)
               (fixup_argv0 (arg :: rest) (token cmd)) ;;
     emit Btrfs_close_all_devices ;;
     exit ret_).
Proof.
  intros Hprog Hknown Hh Hv Harg Hparse Hpass.
  rewrite (main_after_globals prog opts arg rest Hprog Hknown Hh Hv Harg).
  now rewrite (main_dispatch_runs _ arg rest cmd Hparse Hpass).
Qed.

Lemma main_runs_command_witness :
  @main sample_platform ["btrfs"; "--format"; "json"; "qg"; "show"]
  = ([Btrfs_config_init; Crc32c_optimization_init;
      Enter_fn (sample_leaf "qgroup" 3) {| output_mode := 1 |}
        ["qg"; "show"];
      Btrfs_close_all_devices],
     Exits 0).
Proof.
  apply (@main_runs_command sample_platform "btrfs" [Opt_format "json"] "qg"
           ["show"] (sample_leaf "qgroup" 3)).
  - vm_compute. discriminate.
  - repeat constructor. cbn. discriminate.
  - simpl. intuition discriminate.
  - simpl. intuition discriminate.
  - reflexivity.
  - reflexivity.
  - reflexivity.
Defined.

(** The check of the output format needs an argument after the command:
    when the token that resolves is the last argument, [main] runs the
    command whatever the requested format and the formats the command
    supports. *)
Theorem main_last_token_skips_format_check {P : Platform} (prog : string)
    (opts : list global_option) (arg : string) (cmd : cmd_struct) :
  strcmp (bname_of prog) "btrfsck" <> 0 ->
  Forall format_known opts ->
  ~ In "--help" (prog :: options_args opts) ->
  ~ In "--version" (prog :: options_args opts) ->
  NONOPTION_P arg = true ->
  parse_one_token arg btrfs_cmd_group None = (0, Some cmd) ->
  main (prog :: options_args opts ++ [arg])
  = (emit Btrfs_config_init ;;
     emit Crc32c_optimization_init ;;
     ret_ <- cmd_execute cmd (fold_left after_option opts initial_context)
               (fixup_argv0 [arg] (token cmd)) ;;
     emit Btrfs_close_all_devices ;;
     exit ret_).
Proof.
  intros Hprog Hknown Hh Hv Harg Hparse.
  rewrite (main_after_globals prog opts arg [] Hprog Hknown Hh Hv Harg).
  now rewrite (main_dispatch_runs _ arg [] cmd Hparse eq_refl).
Qed.

Lemma main_last_token_skips_format_check_witness :
  cmd_provides_output_format (sample_leaf "quota" 1) {| output_mode := 1 |}
  = false
  /\ @main sample_platform ["btrfs"; "--format"; "json"; "quota"]
     = ([Btrfs_config_init; Crc32c_optimization_init;
         Enter_fn (sample_leaf "quota" 1) {| output_mode := 1 |} ["quota"];
         Btrfs_close_all_devices],
        Exits 0).
Proof.
  split; [reflexivity|].
  apply (@main_last_token_skips_format_check sample_platform "btrfs"
           [Opt_format "json"] "quota" (sample_leaf "quota" 1)).
  - vm_compute. discriminate.
  - repeat constructor. cbn. discriminate.
  - simpl. intuition discriminate.
  - simpl. intuition discriminate.
  - reflexivity.
  - reflexivity.
Defined.

(** With recognised global options and nothing after them, and neither
    "--help" nor "--version" among the arguments, [main] prints the short
    usage of the top group and exits with status 1. *)
Theorem main_without_command {P : Platform} (prog : string)
    (opts : list global_option) :
  strcmp (bname_of prog) "btrfsck" <> 0 ->
  Forall format_known opts ->
  ~ In "--help" (prog :: options_args opts) ->
  ~ In "--version" (prog :: options_args opts) ->
  main (prog :: options_args opts)
  = ([Btrfs_config_init; Usage_command_group_short btrfs_cmd_group],
     Exits 1).
Proof.
  intros Hprog Hknown Hh Hv. apply Z.eqb_neq in Hprog.
  rewrite <- (app_nil_r (options_args opts)) at 1.
  unfold main. fold (bname_of prog). rewrite Hprog. fold initial_context.
  rewrite (handle_global_options_options initial_context prog opts []
             Hknown I).
  cbv beta iota. rewrite bind_ret_l. cbv beta. rewrite app_nil_r.
  assert (Hfirst : firstn (S (List.length (options_args opts)))
                     (prog :: options_args opts)
                   = prog :: options_args opts)
    by (cbn [firstn]; now rewrite firstn_all).
  rewrite handle_special_globals_plain.
  - rewrite bind_ret_l. cbv beta. cbn [skipn]. now rewrite skipn_all.
  - cbn [List.length]. lia.
  - rewrite Hfirst. now apply existsb_eqb_not_In.
  - rewrite Hfirst. now apply existsb_eqb_not_In.
Qed.

Lemma main_without_command_witness :
  @main sample_platform ["btrfs"; "--format"; "text"; "--full"]
  = ([Btrfs_config_init;
      Usage_command_group_short (@btrfs_cmd_group sample_platform)],
     Exits 1).
Proof.
  apply (@main_without_command sample_platform "btrfs"
           [Opt_format "text"; Opt_full]).
  - vm_compute. discriminate.
  - repeat constructor. cbn. discriminate.
  - simpl. intuition discriminate.
  - simpl. intuition discriminate.
Defined.

Lemma handle_special_globals_help_branch {P : Platform}
    (cmdcxt : cmd_context) (shift : nat) (argv : list string) :
  (shift <= List.length argv)%nat ->
  existsb (String.eqb "--help") (firstn shift argv) = true ->
  handle_special_globals cmdcxt shift argv
  = (((if existsb (String.eqb "--full") (firstn shift argv)
       then [Usage_command_group btrfs_cmd_group true false]
       else [Enter_fn cmd_struct_help cmdcxt argv;
             Help_command_group btrfs_cmd_group argv])
      ++ trace (print_output_formats stdout))%list,
     Exits 0).
Proof.
  intros Hshift Hhelp. unfold handle_special_globals.
  assert ((List.length argv <? shift)%nat = false) as ->
    by (apply Nat.ltb_ge; exact Hshift).
  rewrite handle_special_globals_flags_spec, !orb_false_l, Hhelp.
  destruct (print_output_formats_writes stdout) as (tr & -> & _).
  destruct (existsb (String.eqb "--full") (firstn shift argv)); cbn;
    now rewrite app_nil_r.
Qed.

Lemma in_options_args (o : global_option) (opts : list global_option)
    (a : string) :
  In o opts -> In a (option_args o) -> In a (options_args opts).
Proof. intros Ho Ha. apply in_flat_map. now exists o. Qed.

(** With "--help" among recognised global options, [main] renders the
    help, prints the list of formats on stdout (the heading, every name
    of [cmd_outputs] between double quotes, the end of the line and the
    note on extended formats) and exits with status 0, whatever follows
    the options: the arguments after them are not resolved, so an unknown
    command there is not reported. *)
Theorem main_help_before_dispatch {P : Platform} (prog : string)
    (opts : list global_option) (rest : list string) :
  strcmp (bname_of prog) "btrfsck" <> 0 ->
  Forall format_known opts ->
  In Opt_help opts ->
  ends_options rest ->
  main (prog :: options_args opts ++ rest)
  = ((Btrfs_config_init
      :: (if existsb (String.eqb "--full") (prog :: options_args opts)
          then [Usage_command_group btrfs_cmd_group true false]
          else [Enter_fn cmd_struct_help
                  (fold_left after_option opts initial_context)
                  (prog :: options_args opts ++ rest);
                Help_command_group btrfs_cmd_group
                  (prog :: options_args opts ++ rest)])
      ++ Write stdout "Options for --format are:"
         :: (match cmd_outputs with
             | [] => []
             | first :: others =>
               Write stdout (" " ++ DQUOTE ++ first ++ DQUOTE)
               :: map (fun o => Write stdout (", " ++ DQUOTE ++ o ++ DQUOTE))
                    others
             end
             ++ Write stdout LF
                :: (if (List.length cmd_outputs =? 1)%nat then []
                    else [Write stdout
                            ("Extended output formats may not be available for all commands."
                             ++ LF)])))%list,
     Exits 0).
Proof.
  intros Hprog Hknown Hhelp Hend. apply Z.eqb_neq in Hprog.
  unfold main. fold (bname_of prog). rewrite Hprog. fold initial_context.
  rewrite (handle_global_options_options initial_context prog opts rest
             Hknown Hend).
  cbv beta iota. rewrite bind_ret_l. cbv beta.
  assert (Hfirst : firstn (S (List.length (options_args opts)))
                     (prog :: options_args opts ++ rest)
                   = prog :: options_args opts)
    by (cbn [firstn]; now rewrite firstn_length_app).
  rewrite handle_special_globals_help_branch.
  - rewrite Hfirst, (print_output_formats_trace stdout). reflexivity.
  - cbn [List.length]. rewrite length_app. lia.
  - rewrite Hfirst. apply existsb_eqb_In. right.
    apply (in_options_args Opt_help opts); [exact Hhelp | now left].
Qed.

Lemma main_help_before_dispatch_witness :
  @main sample_platform ["btrfs"; "--help"; "frobnicate"; "--bogus"]
  = ([Btrfs_config_init;
      Enter_fn (@cmd_struct_help sample_platform) initial_context
        ["btrfs"; "--help"; "frobnicate"; "--bogus"];
      Help_command_group (@btrfs_cmd_group sample_platform)
        ["btrfs"; "--help"; "frobnicate"; "--bogus"];
      Write stdout "Options for --format are:";
      Write stdout (" " ++ DQUOTE ++ "text" ++ DQUOTE);
      Write stdout (", " ++ DQUOTE ++ "json" ++ DQUOTE);
      Write stdout LF;
      Write stdout
        ("Extended output formats may not be available for all commands."
         ++ LF)],
     Exits 0).
Proof.
  refine (@main_help_before_dispatch sample_platform "btrfs" [Opt_help]
            ["frobnicate"; "--bogus"] _ _ _ _).
  - vm_compute. discriminate.
  - repeat constructor.
  - simpl. auto.
  - reflexivity.
Defined.

(** With "--version" and no "--help" among recognised global options,
    [main] runs the version command, which prints the package string, and
    exits with status 0, whatever follows the options. *)
Theorem main_version_before_dispatch {P : Platform} (prog : string)
    (opts : list global_option) (rest : list string) :
  strcmp (bname_of prog) "btrfsck" <> 0 ->
  Forall format_known opts ->
  ~ In "--help" (prog :: options_args opts) ->
  In Opt_version opts ->
  ends_options rest ->
  main (prog :: options_args opts ++ rest)
  = ([Btrfs_config_init;
      Enter_fn cmd_struct_version
        (fold_left after_option opts initial_context)
        (prog :: options_args opts ++ rest);
      Write stdout (PACKAGE_STRING ++ LF)],
     Exits 0).
Proof.
  intros Hprog Hknown Hh Hver Hend. apply Z.eqb_neq in Hprog.
  unfold main. fold (bname_of prog). rewrite Hprog. fold initial_context.
  rewrite (handle_global_options_options initial_context prog opts rest
             Hknown Hend).
  cbv beta iota. rewrite bind_ret_l. cbv beta.
  assert (Hfirst : firstn (S (List.length (options_args opts)))
                     (prog :: options_args opts ++ rest)
                   = prog :: options_args opts)
    by (cbn [firstn]; now rewrite firstn_length_app).
  unfold handle_special_globals.
  assert ((List.length (prog :: options_args opts ++ rest)
           <? S (List.length (options_args opts)))%nat = false) as ->
    by (apply Nat.ltb_ge; cbn [List.length]; rewrite length_app; lia).
  rewrite handle_special_globals_flags_spec, !orb_false_l, Hfirst.
  rewrite (existsb_eqb_not_In _ _ Hh).
  rewrite handle_special_globals_version_spec.
  assert (existsb (String.eqb "--version") (prog :: options_args opts) = true)
    as ->.
  { apply existsb_eqb_In. right.
    apply (in_options_args Opt_version opts); [exact Hver | now left]. }
  reflexivity.
Qed.

Lemma main_version_before_dispatch_witness :
  @main sample_platform ["btrfs"; "--version"; "frobnicate"]
  = ([Btrfs_config_init;
      Enter_fn (@cmd_struct_version sample_platform) initial_context
        ["btrfs"; "--version"; "frobnicate"];
      Write stdout ("btrfs-progs v5.1" ++ LF)],
     Exits 0).
Proof.
  apply (@main_version_before_dispatch sample_platform "btrfs" [Opt_version]
           ["frobnicate"]).
  - vm_compute. discriminate.
  - repeat constructor.
  - simpl. intuition discriminate.
  - simpl. auto.
  - reflexivity.
Defined.

(** A long option whose name, the text between the two dashes and the
    first '=', is the start of none of "help", "version", "format" and
    "full" ends the process with status 129 and a diagnostic that names
    the whole argument: "--bogus", "--bogus=1", "--helpful". *)
Theorem handle_global_options_unknown_long_option {P : Platform}
    (cmdcxt : cmd_context) (prog : string) (opts : list global_option)
    (text : string) (rest : list string) :
  Forall format_known opts ->
  text <> EmptyString ->
  (forall p, In p long_options ->
             String.prefix (fst (split_nameend text)) (name p) = false) ->
  handle_global_options cmdcxt
    (prog :: options_args opts ++ ("--" ++ text) :: rest)
  = (fold_left after_option opts cmdcxt,
     ([Write stderr ("Unknown global option: " ++ "--" ++ text ++ LF)],
      Exits 129)).
Proof.
  intros Hknown Hne Hno.
  rewrite (handle_global_options_rejected cmdcxt prog opts ("--" ++ text)
             rest Hknown).
  - reflexivity.
  - apply (getopt_long_unknown_name (prog :: options_args opts) text rest
             Hne Hno).
Qed.

Lemma handle_global_options_unknown_long_option_witness :
  @handle_global_options sample_platform initial_context
    ["btrfs"; "--helpful=1"; "quota"]
  = (initial_context,
     ([Write stderr ("Unknown global option: --helpful=1" ++ LF)],
      Exits 129)).
Proof.
  apply (@handle_global_options_unknown_long_option sample_platform
           initial_context "btrfs" [] "helpful=1" ["quota"]).
  - constructor.
  - discriminate.
  - intros p [<-|[<-|[<-|[<-|[]]]]]; reflexivity.
Defined.
